(** * A shallow embedding of the notary-arweave-bundler protocol core

    Sources embedded here:
    - [src/src/lib/assemble-bundle.ts]   : [assembleBundle], [longTo32ByteArray]
    - [src/unnamed/part_000] (data-item) : [parseDataItem], [decodeAvroTags],
                                           [readZigzagVarint], [deepHash],
                                           [verifyDataItem]
    - [src/src/lib/validate.ts]          : [validateDataItem] and its helpers
    - [src/src/handlers/verify.ts]       : the decode-then-validate pipeline

    Data model.  A Node [Buffer] / [Uint8Array] is a [list Z] whose elements
    are the byte values.  A JavaScript string is a [list Z] of its code
    points.  Every pattern of the validator is ASCII-only and every
    comparison is an equality, so code points and UTF-16 code units give the
    same verdicts.  JavaScript numbers holding lengths, offsets and the
    int32 results of the bit operators are [Z], with the int32 wrap-around
    of [|], [<<], [^] and [>>>] written out.

    Platform primitives of Node's [crypto] module (SHA-256, SHA-384, RSA-PSS
    verification) and [JSON.parse] are parameters of the development.
    Buffer.toString("utf-8") and base64url are written out. *)

From Stdlib Require Import String Ascii.
From Stdlib Require Import List ZArith Bool Lia Permutation.
Import ListNotations.
Open Scope Z_scope.
Set Warnings "-register-all".

(* ------------------------------------------------------------------------- *)
(** ** JavaScript numbers and Buffers *)

Definition bytes := list Z.
Definition jsstring := list Z.

(** ASCII literal as a JavaScript string. *)
Definition lit (s : string) : jsstring :=
  map (fun c => Z.of_nat (nat_of_ascii c)) (list_ascii_of_string s).

Definition len {A} (b : list A) : Z := Z.of_nat (length b).

(** ToUint32 / ToInt32 of the ECMAScript specification. *)
Definition toUint32 (x : Z) : Z := x mod 2 ^ 32.
Definition toInt32 (x : Z) : Z :=
  let m := x mod 2 ^ 32 in if m <? 2 ^ 31 then m else m - 2 ^ 32.

(** [a | b], [a << s], [a ^ b], [a >>> s], [a & b] on JavaScript numbers. *)
Definition js_or (a b : Z) : Z := toInt32 (Z.lor (toUint32 a) (toUint32 b)).
Definition js_shl (a s : Z) : Z := toInt32 (Z.shiftl (toUint32 a) (Z.land s 31)).
Definition js_xor (a b : Z) : Z := toInt32 (Z.lxor (toUint32 a) (toUint32 b)).
Definition js_ushr (a s : Z) : Z := Z.shiftr (toUint32 a) (Z.land s 31).
Definition js_and (a b : Z) : Z := toInt32 (Z.land (toUint32 a) (toUint32 b)).

(** [buf[i]]: [undefined] (here [None]) out of range. *)
Definition byte_at (b : bytes) (i : Z) : option Z :=
  if i <? 0 then None else nth_error b (Z.to_nat i).

(** [buf.subarray(start, end)]: negative positions count from the end, both
    positions are clamped to [0, length], an empty view if [end <= start]. *)
Definition rel_index (l i : Z) : Z :=
  if i <? 0 then Z.max (l + i) 0 else Z.min i l.

Definition subarray (b : bytes) (s e : Z) : bytes :=
  let rs := rel_index (len b) s in
  let re := rel_index (len b) e in
  firstn (Z.to_nat (re - rs)) (skipn (Z.to_nat rs) b).

(** [buf.subarray(start)] *)
Definition subarray_from (b : bytes) (s : Z) : bytes := subarray b s (len b).

(** Little-endian value of a list of bytes. *)
Fixpoint le_value (b : bytes) : Z :=
  match b with
  | [] => 0
  | x :: r => x + 256 * le_value r
  end.

(** [buf.readUInt16LE(off)] and [Number(buf.readBigUInt64LE(off))]: Node
    throws ERR_OUT_OF_RANGE (here [None]) when the read passes the end. *)
Definition readUIntLE (n : Z) (b : bytes) (off : Z) : option Z :=
  if (off <? 0) || (len b <? off + n) then None
  else Some (le_value (firstn (Z.to_nat n) (skipn (Z.to_nat off) b))).

Definition readUInt16LE := readUIntLE 2.
Definition readBigUInt64LE := readUIntLE 8.

(** [list[i] = v] for an index inside the list. *)
Fixpoint list_set (l : list Z) (i : nat) (v : Z) : list Z :=
  match l, i with
  | [], _ => []
  | _ :: r, O => v :: r
  | x :: r, S i' => x :: list_set r i' v
  end.

(* ------------------------------------------------------------------------- *)
(** ** Bundle assembler ([assemble-bundle.ts]) *)

Section Assembler.

Variable sha256 : bytes -> bytes.

(** [for (let i = 0; i < 8 && long > 0; i++) { buf[i] = long & 0xff;
    long = Math.floor(long / 256); }]: [k] is the number of iterations left
    before [i] reaches 8. *)
Fixpoint longTo32_loop (k : nat) (i : nat) (long : Z) (buf : list Z) : list Z :=
  match k with
  | O => buf
  | S k' =>
      if 0 <? long then
        longTo32_loop k' (S i) (long / 256)
          (list_set buf i (Z.land (toInt32 long) 255))
      else buf
  end.

Definition longTo32ByteArray (long : Z) : bytes :=
  longTo32_loop 8 O long (repeat 0 32).

Definition assembleBundle (dataItems : list bytes) : bytes :=
  let headerBuffers :=
    longTo32ByteArray (len dataItems)
      :: flat_map (fun item =>
                     let signature := subarray item 2 514 in
                     let id := sha256 signature in
                     [longTo32ByteArray (len item); id]) dataItems in
  concat (headerBuffers ++ dataItems).

End Assembler.

(** The framing of the spec, in its own words: a 32-byte little-endian
    field whose low 8 bytes hold [n] and whose upper 24 bytes are zero. *)
Definition spec_le32 (n : Z) : bytes :=
  map (fun i => (n / 256 ^ Z.of_nat i) mod 256) (seq 0 8) ++ repeat 0 24.

Definition spec_bundle (sha256 : bytes -> bytes) (L : list bytes) : bytes :=
  spec_le32 (len L)
  ++ concat (map (fun b => spec_le32 (len b) ++ sha256 (firstn 512 (skipn 2 b))) L)
  ++ concat L.

(* ------------------------------------------------------------------------- *)
(** ** [Buffer.toString("utf-8")] and base64url *)

(** The WHATWG UTF-8 decoder that Node uses: every maximal invalid
    subsequence becomes U+FFFD and decoding never fails.  [utf8_lead] gives
    the bytes needed, the initial code point and the bounds of the first
    continuation byte. *)
Definition utf8_lead (b : Z) : option (nat * Z * Z * Z) :=
  if (0xC2 <=? b) && (b <=? 0xDF) then Some (1%nat, Z.land b 0x1F, 0x80, 0xBF)
  else if (0xE0 <=? b) && (b <=? 0xEF) then
    Some (2%nat, Z.land b 0xF, if b =? 0xE0 then 0xA0 else 0x80,
          if b =? 0xED then 0x9F else 0xBF)
  else if (0xF0 <=? b) && (b <=? 0xF4) then
    Some (3%nat, Z.land b 0x7, if b =? 0xF0 then 0x90 else 0x80,
          if b =? 0xF4 then 0x8F else 0xBF)
  else None.

(** Reads the continuation bytes; on error the offending byte is not
    consumed (it is reprocessed), at the end of input one U+FFFD is due. *)
Fixpoint utf8_cont (needed : nat) (cp lower upper : Z) (l : bytes)
  : option Z * bytes :=
  match needed with
  | O => (Some cp, l)
  | S n =>
      match l with
      | [] => (None, [])
      | c :: r =>
          if (lower <=? c) && (c <=? upper)
          then utf8_cont n (Z.lor (Z.shiftl cp 6) (Z.land c 0x3F)) 0x80 0xBF r
          else (None, l)
      end
  end.

Fixpoint utf8_go (fuel : nat) (l : bytes) : jsstring :=
  match fuel with
  | O => []
  | S f =>
      match l with
      | [] => []
      | b :: r =>
          if b <=? 0x7F then b :: utf8_go f r
          else match utf8_lead b with
               | None => 0xFFFD :: utf8_go f r
               | Some (n, cp, lo, up) =>
                   let (res, rest) := utf8_cont n cp lo up r in
                   match res with
                   | Some c => c :: utf8_go f rest
                   | None => 0xFFFD :: utf8_go f rest
                   end
               end
      end
  end.

(** Each step consumes at least one byte, so [length l] steps suffice. *)
Definition utf8_decode (l : bytes) : jsstring := utf8_go (length l) l.

Definition b64url_char (i : Z) : Z :=
  if i <? 26 then 65 + i
  else if i <? 52 then 97 + (i - 26)
  else if i <? 62 then 48 + (i - 52)
  else if i =? 62 then 45 else 95.

(** [Buffer.toString("base64url")] and [digest("base64url")]: unpadded. *)
Fixpoint base64url (l : bytes) : jsstring :=
  match l with
  | a :: b :: c :: r =>
      let n := a * 65536 + b * 256 + c in
      map b64url_char [n / 262144; (n / 4096) mod 64; (n / 64) mod 64; n mod 64]
      ++ base64url r
  | [a; b] =>
      let n := a * 65536 + b * 256 in
      map b64url_char [n / 262144; (n / 4096) mod 64; (n / 64) mod 64]
  | [a] =>
      let n := a * 65536 in
      map b64url_char [n / 262144; (n / 4096) mod 64]
  | [] => []
  end.

(* ------------------------------------------------------------------------- *)
(** ** Avro tags ([decodeAvroTags], [readZigzagVarint]) *)

Record Tag := mkTag { tag_name : jsstring; tag_value : jsstring }.

(** The bytes [buf[pos]], [buf[pos+1]], ... that the reader can see;
    a negative [pos] reads [undefined] at once. *)
Definition suffix (buf : bytes) (pos : Z) : bytes :=
  if pos <? 0 then [] else skipn (Z.to_nat pos) buf.

(** The [while (true)] loop.  Past the end of the buffer [buf[pos++]] is
    [undefined]; [undefined & 0x7f] is 0 and [(undefined & 0x80) === 0]
    holds, so the loop stops there. *)
Fixpoint readZigzag_loop (rest : bytes) (result shift consumed : Z) : Z * Z :=
  match rest with
  | [] => (js_or result (js_shl 0 shift), consumed + 1)
  | byte :: rest' =>
      let result' := js_or result (js_shl (Z.land byte 0x7f) shift) in
      if Z.land byte 0x80 =? 0 then (result', consumed + 1)
      else readZigzag_loop rest' result' (shift + 7) (consumed + 1)
  end.

Definition readZigzagVarint (buf : bytes) (offset : Z) : Z * Z :=
  let (result, n) := readZigzag_loop (suffix buf offset) 0 0 0 in
  (js_xor (js_ushr result 1) (- js_and result 1), n).

(** The inner [for (let i = 0; i < count; i++)] loop. *)
Fixpoint decodeAvroTags_block (k : nat) (buf : bytes) (offset : Z) (tags : list Tag)
  : Z * list Tag :=
  match k with
  | O => (offset, tags)
  | S k' =>
      let (nameLen, nBytes) := readZigzagVarint buf offset in
      let offset := offset + nBytes in
      let name := utf8_decode (subarray buf offset (offset + nameLen)) in
      let offset := offset + nameLen in
      let (valueLen, vBytes) := readZigzagVarint buf offset in
      let offset := offset + vBytes in
      let value := utf8_decode (subarray buf offset (offset + valueLen)) in
      let offset := offset + valueLen in
      decodeAvroTags_block k' buf offset (tags ++ [mkTag name value])
  end.

(** The outer [while (offset < buf.length)] loop.  Negative lengths can move
    [offset] backwards, so the loop need not terminate: [fuel] bounds the
    number of iterations and [None] means it ran out. *)
Fixpoint decodeAvroTags_loop (fuel : nat) (buf : bytes) (offset : Z) (tags : list Tag)
  : option (list Tag) :=
  match fuel with
  | O => None
  | S f =>
      if offset <? len buf then
        let (blockCount, bytesRead) := readZigzagVarint buf offset in
        let offset := offset + bytesRead in
        if blockCount =? 0 then Some tags
        else
          let count := Z.abs blockCount in
          let offset :=
            if blockCount <? 0 then offset + snd (readZigzagVarint buf offset)
            else offset in
          let (offset, tags) := decodeAvroTags_block (Z.to_nat count) buf offset tags in
          decodeAvroTags_loop f buf offset tags
      else Some tags
  end.

Definition decodeAvroTags (fuel : nat) (buf : bytes) : option (list Tag) :=
  decodeAvroTags_loop fuel buf 0 [].

(* ------------------------------------------------------------------------- *)
(** ** Deep hash and the signature check ([deepHash], [verifyDataItem]) *)

(** [n.toString()] for a non-negative integer, as UTF-8 bytes. *)
Fixpoint uint_ascii (d : Decimal.uint) : bytes :=
  match d with
  | Decimal.Nil => []
  | Decimal.D0 r => 48 :: uint_ascii r
  | Decimal.D1 r => 49 :: uint_ascii r
  | Decimal.D2 r => 50 :: uint_ascii r
  | Decimal.D3 r => 51 :: uint_ascii r
  | Decimal.D4 r => 52 :: uint_ascii r
  | Decimal.D5 r => 53 :: uint_ascii r
  | Decimal.D6 r => 54 :: uint_ascii r
  | Decimal.D7 r => 55 :: uint_ascii r
  | Decimal.D8 r => 56 :: uint_ascii r
  | Decimal.D9 r => 57 :: uint_ascii r
  end.

Definition nat_toString (n : nat) : bytes := uint_ascii (Nat.to_uint n).

(** [type DeepHashChunk = Uint8Array | DeepHashChunk[]] *)
Inductive DeepHashChunk :=
| CBlob (b : bytes)
| CList (cs : list DeepHashChunk).

Section DeepHash.

Variable sha384 : bytes -> bytes.

Fixpoint deepHash (data : DeepHashChunk) : bytes :=
  match data with
  | CBlob b =>
      let tag := lit "blob" ++ nat_toString (length b) in
      let tagHash := sha384 tag in
      let dataHash := sha384 b in
      sha384 (tagHash ++ dataHash)
  | CList cs =>
      let tag := lit "list" ++ nat_toString (length cs) in
      (fix loop (acc : bytes) (cs : list DeepHashChunk) : bytes :=
         match cs with
         | [] => acc
         | chunk :: r =>
             let chunkHash := deepHash chunk in
             loop (sha384 (acc ++ chunkHash)) r
         end) (sha384 tag) cs
  end.

(** The array literal handed to [deepHash] in [verifyDataItem]. *)
Definition dataItemChunks (owner : bytes) (target anchor : option bytes)
    (tagBytes data : bytes) : DeepHashChunk :=
  CList [CBlob (lit "dataitem"); CBlob (lit "1"); CBlob (lit "1"); CBlob owner;
         CBlob (match target with Some t => t | None => [] end);
         CBlob (match anchor with Some a => a | None => [] end);
         CBlob tagBytes; CBlob data].

(** [crypto.verify("sha256", message, {n, e: "AQAB", PSS}, signature)]:
    the modulus as base64url, the message, the signature. *)
Variable rsa_pss_verify : jsstring -> bytes -> bytes -> bool.

Definition verifyDataItem (signature owner : bytes) (target anchor : option bytes)
    (tagBytes data : bytes) : bool :=
  let signatureData := deepHash (dataItemChunks owner target anchor tagBytes data) in
  let n := base64url owner in
  rsa_pss_verify n signatureData signature.

End DeepHash.

(** The deep hash in the words of the spec: a blob leaf is
    [H(H("blob" || len_ascii) || H(bytes))], a list of length N folds
    [acc := H(acc || deephash(c))] from [acc = H("list" || N_ascii)]. *)
Definition spec_blob_hash (H : bytes -> bytes) (b : bytes) : bytes :=
  H (H (lit "blob" ++ nat_toString (length b)) ++ H b).

Definition spec_list_hash (H : bytes -> bytes) (children : list bytes) : bytes :=
  fold_left (fun acc b => H (acc ++ spec_blob_hash H b)) children
            (H (lit "list" ++ nat_toString (length children))).

(* ------------------------------------------------------------------------- *)
(** ** DataItem decoder ([parseDataItem]) *)

(** The result of [parseDataItem]; the last five fields are the values the
    [isValid] closure captures. *)
Record ParsedDataItem := mkParsed {
  pd_id : jsstring;
  pd_signatureType : Z;
  pd_owner : jsstring;
  pd_target : option jsstring;
  pd_anchor : option jsstring;
  pd_tags : list Tag;
  pd_rawData : bytes;
  pd_signature : bytes;
  pd_ownerBytes : bytes;
  pd_targetBytes : option bytes;
  pd_anchorBytes : option bytes;
  pd_tagBytes : bytes
}.

(** What [parseDataItem] throws. *)
Inductive ParseError :=
| ErrOutOfRange (offset : Z)
| ErrUnsupportedSignatureType (sigType : Z)
| ErrTagCountMismatch (header decoded : Z).

Inductive Outcome (A : Type) :=
| Ok (a : A)
| Throw (e : ParseError)
| Diverge.
Arguments Ok {A} a.
Arguments Throw {A} e.
Arguments Diverge {A}.

Fixpoint dropLeadingNul (s : jsstring) : jsstring :=
  match s with
  | 0 :: r => dropLeadingNul r
  | _ => s
  end.

(** [s.replace(/\0+$/, "")]: the trailing run of U+0000 is removed. *)
Definition trimTrailingNul (s : jsstring) : jsstring := rev (dropLeadingNul (rev s)).

(** [anchor.toString("utf-8").replace(/\0+$/, "") || undefined] *)
Definition anchorToString (a : bytes) : option jsstring :=
  match trimTrailingNul (utf8_decode a) with
  | [] => None
  | s => Some s
  end.

(** [buffer[offset++] === 1] *)
Definition flag_is_one (f : option Z) : bool :=
  match f with Some 1 => true | _ => false end.

Section Parse.

Variable sha256 : bytes -> bytes.

(** [fuel] bounds the iterations of the [while] loop of [decodeAvroTags];
    [Diverge] stands for a run that does not terminate within it. *)
Definition parseDataItem (fuel : nat) (buffer : bytes) : Outcome ParsedDataItem :=
  match readUInt16LE buffer 0 with
  | None => Throw (ErrOutOfRange 0)
  | Some sigType =>
  if negb (sigType =? 1) then Throw (ErrUnsupportedSignatureType sigType) else
  let signature := subarray buffer 2 (2 + 512) in
  let owner := subarray buffer 514 (514 + 512) in
  let offset := 1026 in
  (* Target *)
  let targetFlag := byte_at buffer offset in
  let offset := offset + 1 in
  let '(target, offset) :=
    if flag_is_one targetFlag
    then (Some (subarray buffer offset (offset + 32)), offset + 32)
    else (None, offset) in
  (* Anchor *)
  let anchorFlag := byte_at buffer offset in
  let offset := offset + 1 in
  let '(anchor, offset) :=
    if flag_is_one anchorFlag
    then (Some (subarray buffer offset (offset + 32)), offset + 32)
    else (None, offset) in
  (* Tags *)
  match readBigUInt64LE buffer offset with
  | None => Throw (ErrOutOfRange offset)
  | Some tagCount =>
  let offset := offset + 8 in
  match readBigUInt64LE buffer offset with
  | None => Throw (ErrOutOfRange offset)
  | Some tagBytesLength =>
  let offset := offset + 8 in
  let tagBytes := subarray buffer offset (offset + tagBytesLength) in
  match (if 0 <? tagBytesLength then decodeAvroTags fuel tagBytes else Some []) with
  | None => Diverge
  | Some tags =>
  if negb (len tags =? tagCount)
  then Throw (ErrTagCountMismatch tagCount (len tags)) else
  let offset := offset + tagBytesLength in
  (* Data payload *)
  let data := subarray_from buffer offset in
  let id := base64url (sha256 signature) in
  let ownerB64 := base64url owner in
  Ok {| pd_id := id;
        pd_signatureType := sigType;
        pd_owner := ownerB64;
        pd_target := match target with Some t => Some (base64url t) | None => None end;
        pd_anchor := match anchor with Some a => anchorToString a | None => None end;
        pd_tags := tags;
        pd_rawData := data;
        pd_signature := signature;
        pd_ownerBytes := owner;
        pd_targetBytes := target;
        pd_anchorBytes := anchor;
        pd_tagBytes := tagBytes |}
  end end end
  end.

End Parse.

(** [parsed.isValid()] *)
Definition isValid (sha384 : bytes -> bytes) (rsa_pss_verify : jsstring -> bytes -> bytes -> bool)
    (p : ParsedDataItem) : bool :=
  verifyDataItem sha384 rsa_pss_verify (pd_signature p) (pd_ownerBytes p)
    (pd_targetBytes p) (pd_anchorBytes p) (pd_tagBytes p) (pd_rawData p).

(* ------------------------------------------------------------------------- *)
(** ** Schema validator ([validate.ts]) *)

Definition str_eqb (a b : jsstring) : bool :=
  if list_eq_dec Z.eq_dec a b then true else false.

Definition is_digit (c : Z) : bool := (48 <=? c) && (c <=? 57).
Definition is_lower_hex (c : Z) : bool := is_digit c || ((97 <=? c) && (c <=? 102)).
Definition is_hex_i (c : Z) : bool := is_lower_hex c || ((65 <=? c) && (c <=? 70)).

Definition all_of (p : Z -> bool) (s : jsstring) : bool := forallb p s.

(** [/^[0-9a-f]{64}$/] *)
Definition SHA256_HEX (s : jsstring) : bool := (length s =? 64)%nat && all_of is_lower_hex s.
Definition NAMESPACE := SHA256_HEX.

(** One position of a fixed-width pattern: a character class or a literal. *)
Inductive Pat := PClass (p : Z -> bool) | PChar (c : Z).

Fixpoint match_fixed (ps : list Pat) (s : jsstring) : option jsstring :=
  match ps, s with
  | [], _ => Some s
  | PClass p :: ps', c :: s' => if p c then match_fixed ps' s' else None
  | PChar d :: ps', c :: s' => if c =? d then match_fixed ps' s' else None
  | _ :: _, [] => None
  end.

Definition D := PClass is_digit.
Definition ch (a : ascii) : Pat := PChar (Z.of_nat (nat_of_ascii a)).

Definition full_match (ps : list Pat) (s : jsstring) : bool :=
  match match_fixed ps s with Some [] => true | _ => false end.

(** [/^\d{4}-\d{2}-\d{2}$/] *)
Definition date_pat := [D; D; D; D; ch "-"; D; D; ch "-"; D; D].
Definition DATE_UTC (s : jsstring) : bool := full_match date_pat s.

(** [/^\d{4}-\d{2}-\d{2}T\d{2}:\d{2}:\d{2}(?:\.\d+)?(?:Z|[+-]\d{2}:\d{2})$/].
    After the fraction's digits comes [Z], [+] or [-], never a digit, so the
    greedy [\d+] needs no backtracking. *)
Fixpoint skip_digits (s : jsstring) : jsstring :=
  match s with
  | c :: r => if is_digit c then skip_digits r else s
  | [] => []
  end.

Definition iso_zone (s : jsstring) : bool :=
  full_match [ch "Z"] s
  || full_match [PClass (fun c => (c =? 43) || (c =? 45)); D; D; ch ":"; D; D] s.

Definition ISO8601 (s : jsstring) : bool :=
  match match_fixed (date_pat ++ [ch "T"; D; D; ch ":"; D; D; ch ":"; D; D]) s with
  | None => false
  | Some rest =>
      iso_zone rest
      || match rest with
         | 46 :: c :: r => is_digit c && iso_zone (skip_digits r)
         | _ => false
         end
  end.

(** [/^[0-9a-f]{8}-[0-9a-f]{4}-[0-9a-f]{4}-[0-9a-f]{4}-[0-9a-f]{12}$/i] *)
Definition UUID (s : jsstring) : bool :=
  let H := PClass is_hex_i in
  full_match (repeat H 8 ++ [ch "-"] ++ repeat H 4 ++ [ch "-"] ++ repeat H 4
              ++ [ch "-"] ++ repeat H 4 ++ [ch "-"] ++ repeat H 12) s.

(** [NON_NEGATIVE_INT]: the whole string is 0, or a digit 1-9 followed by
    any number of digits. *)
Definition NON_NEGATIVE_INT (s : jsstring) : bool :=
  match s with
  | [48] => true
  | c :: r => (49 <=? c) && (c <=? 57) && all_of is_digit r
  | [] => false
  end.

(** Splits off the longest prefix of digits. *)
Fixpoint span_digits (s : jsstring) : jsstring * jsstring :=
  match s with
  | c :: r => if is_digit c then let (d, t) := span_digits r in (c :: d, t) else ([], s)
  | [] => ([], [])
  end.

(** [/^\d+\.\d+\.\d+$/] *)
Definition SEMVER (s : jsstring) : bool :=
  let (a, r1) := span_digits s in
  match a, r1 with
  | _ :: _, 46 :: r1' =>
      let (b, r2) := span_digits r1' in
      match b, r2 with
      | _ :: _, 46 :: r2' =>
          let (c, r3) := span_digits r2' in
          match c, r3 with
          | _ :: _, [] => true
          | _, _ => false
          end
      | _, _ => false
      end
  | _, _ => false
  end.

(** [parseInt(d, 10)] of a string of ASCII digits.  JavaScript rounds large
    values to a double; rounding is monotone and 0, 1 and 2 are exact, so
    every comparison [semverGte] makes against [MIN_SDK_VERSION] has the
    same outcome on the exact value used here. *)
Definition parseInt10 (d : jsstring) : Z :=
  fold_left (fun acc c => acc * 10 + (c - 48)) d 0.

(** [s.match(/^(\d+)\.(\d+)\.(\d+)/)] then three [parseInt]s. *)
Definition parseSemver (s : jsstring) : option (Z * Z * Z) :=
  let (a, r1) := span_digits s in
  match a, r1 with
  | _ :: _, 46 :: r1' =>
      let (b, r2) := span_digits r1' in
      match b, r2 with
      | _ :: _, 46 :: r2' =>
          let (c, _) := span_digits r2' in
          match c with
          | _ :: _ => Some (parseInt10 a, parseInt10 b, parseInt10 c)
          | [] => None
          end
      | _, _ => None
      end
  | _, _ => None
  end.

Definition MIN_SDK_VERSION : Z * Z * Z := (0, 2, 0).

(** [for (let i = 0; i < 3; i++) { if (a[i] > b[i]) return true;
    if (a[i] < b[i]) return false; } return true;] *)
Definition semverGte (a b : Z * Z * Z) : bool :=
  let '(a0, a1, a2) := a in
  let '(b0, b1, b2) := b in
  if a0 >? b0 then true else if a0 <? b0 then false else
  if a1 >? b1 then true else if a1 <? b1 then false else
  if a2 >? b2 then true else if a2 <? b2 then false else
  true.

Definition MAX_DATA_ITEM_SIZE := 12288.
Definition EXPECTED_TAG_COUNT := 9.
Definition EXPECTED_BODY_FIELD_COUNT := 5.

(** The error of each [fail(...)] of [validateDataItem], with the values it
    interpolates into its message. *)
Inductive ValidationError :=
| ESizeExceeded
| ESignatureType (sigType : Z)
| ETargetNotAllowed
| EAnchorNotAllowed
| ETagCount (n : Z)
| EDuplicateTag (name : jsstring)
| EAppName (got : option jsstring)
| EContentType (got : option jsstring)
| EHashTag
| ENamespaceTag
| ESessionIdTag
| ESequenceTag
| ENotarizedAtTag
| ENotarizedDateTag
| ESdkVersionTag
| ESdkVersionBelowMinimum (version : jsstring)
| EDateMismatch (date fromTimestamp : jsstring)
| EBodyNotJson
| EBodyNotObject
| EBodyFieldCount (n : Z)
| EBodyHash
| EBodyNamespace
| EBodyNotarizedAt
| EBodySdkVersion
| EBodyV
| EHashMismatch
| ENamespaceMismatch
| ENotarizedAtMismatch
| ESdkVersionMismatch.

Inductive ValidationResult :=
| Valid
| Invalid (e : ValidationError).

Definition is_valid (r : ValidationResult) : bool :=
  match r with Valid => true | Invalid _ => false end.

(** A value produced by [JSON.parse].  An object is kept as the list of its
    members in the order of the text. *)
Inductive json :=
| JNull
| JBool (b : bool)
| JNumber (n : Z)
| JString (s : jsstring)
| JArray (items : list json)
| JObject (members : list (jsstring * json)).

(** [obj[k]] on a parsed object: a later duplicate member overwrites an
    earlier one. *)
Fixpoint js_get (ms : list (jsstring * json)) (k : jsstring) : option json :=
  match ms with
  | [] => None
  | (k', v) :: r =>
      match js_get r k with
      | Some v' => Some v'
      | None => if str_eqb k k' then Some v else None
      end
  end.

(** [Object.keys(obj)], one entry per distinct member name (its order plays
    no role below). *)
Definition object_keys (ms : list (jsstring * json)) : list jsstring :=
  nodup (list_eq_dec Z.eq_dec) (map fst ms).

(** [new Map<string, string>()] with [has], [get] and [set]. *)
Definition TagMap := list (jsstring * jsstring).

Definition map_has (m : TagMap) (k : jsstring) : bool :=
  existsb (fun kv => str_eqb (fst kv) k) m.

Fixpoint map_get (m : TagMap) (k : jsstring) : option jsstring :=
  match m with
  | [] => None
  | (k', v) :: r => if str_eqb k' k then Some v else map_get r k
  end.

Definition map_set (m : TagMap) (k v : jsstring) : TagMap :=
  if map_has m k
  then map (fun kv => if str_eqb (fst kv) k then (k, v) else kv) m
  else m ++ [(k, v)].

(** [for (const tag of tags) { if (tagMap.has(tag.name)) return fail(...);
    tagMap.set(tag.name, tag.value); }] *)
Fixpoint buildTagMap (m : TagMap) (tags : list Tag) : TagMap + ValidationError :=
  match tags with
  | [] => inl m
  | t :: r =>
      if map_has m (tag_name t) then inr (EDuplicateTag (tag_name t))
      else buildTagMap (map_set m (tag_name t) (tag_value t)) r
  end.

(** [if (!x || !RE.test(x)) return fail(...)]: the empty string is falsy. *)
Definition tag_format (x : option jsstring) (re : jsstring -> bool) : option jsstring :=
  match x with
  | Some ((_ :: _) as s) => if re s then Some s else None
  | _ => None
  end.

Definition tag_literal (x : option jsstring) (expected : string) : bool :=
  match x with Some s => str_eqb s (lit expected) | None => false end.

(** The tag values the rest of [validateDataItem] uses. *)
Record TagValues := mkTagValues {
  tv_hash : jsstring;
  tv_namespace : jsstring;
  tv_notarizedAt : jsstring;
  tv_notarizedDate : jsstring;
  tv_sdkVersion : jsstring
}.

(** Lines 68-145 of [validateDataItem]: size, signature type, target and
    anchor, then the tag count, duplicates and each of the nine tags. *)
Definition validate_tags (signatureType : Z) (tags : list Tag) (totalSize : Z)
    (target anchor : option jsstring) : ValidationError + TagValues :=
  if totalSize >? MAX_DATA_ITEM_SIZE then inl ESizeExceeded else
  if negb (signatureType =? 1) then inl (ESignatureType signatureType) else
  match target with Some _ => inl ETargetNotAllowed | None =>
  match anchor with Some _ => inl EAnchorNotAllowed | None =>
  if negb (len tags =? EXPECTED_TAG_COUNT) then inl (ETagCount (len tags)) else
  match buildTagMap [] tags with
  | inr e => inl e
  | inl tagMap =>
  let appName := map_get tagMap (lit "App-Name") in
  if negb (tag_literal appName "agentsystems-notary") then inl (EAppName appName) else
  let contentType := map_get tagMap (lit "Content-Type") in
  if negb (tag_literal contentType "application/json") then inl (EContentType contentType) else
  match tag_format (map_get tagMap (lit "Hash")) SHA256_HEX with
  | None => inl EHashTag | Some hashTag =>
  match tag_format (map_get tagMap (lit "Namespace")) NAMESPACE with
  | None => inl ENamespaceTag | Some namespaceTag =>
  match tag_format (map_get tagMap (lit "Session-ID")) UUID with
  | None => inl ESessionIdTag | Some _ =>
  match tag_format (map_get tagMap (lit "Sequence")) NON_NEGATIVE_INT with
  | None => inl ESequenceTag | Some _ =>
  match tag_format (map_get tagMap (lit "Notarized-At")) ISO8601 with
  | None => inl ENotarizedAtTag | Some notarizedAtTag =>
  match tag_format (map_get tagMap (lit "Notarized-Date-UTC")) DATE_UTC with
  | None => inl ENotarizedDateTag | Some notarizedDateTag =>
  match tag_format (map_get tagMap (lit "SDK-Version")) SEMVER with
  | None => inl ESdkVersionTag | Some sdkVersionTag =>
  inr (mkTagValues hashTag namespaceTag notarizedAtTag notarizedDateTag sdkVersionTag)
  end end end end end end end
  end end end.

(** [typeof x !== "string" || !RE.test(x)] on a body field. *)
Definition body_string (x : option json) (re : jsstring -> bool) : option jsstring :=
  match x with
  | Some (JString s) => if re s then Some s else None
  | _ => None
  end.

Section Validate.

(** [JSON.parse] on the decoded payload; [None] when it throws. *)
Variable JSON_parse : jsstring -> option json.

Definition validateDataItem (signatureType : Z) (tags : list Tag) (rawData : bytes)
    (totalSize : Z) (target anchor : option jsstring) : ValidationResult :=
  match validate_tags signatureType tags totalSize target anchor with
  | inl e => Invalid e
  | inr tv =>
  let sdkVersionTag := tv_sdkVersion tv in
  (* Minimum SDK version *)
  match parseSemver sdkVersionTag with
  | None => Invalid (ESdkVersionBelowMinimum sdkVersionTag)
  | Some parsedVersion =>
  if negb (semverGte parsedVersion MIN_SDK_VERSION)
  then Invalid (ESdkVersionBelowMinimum sdkVersionTag) else
  (* Notarized-Date-UTC must be consistent with Notarized-At *)
  let dateFromTimestamp := firstn 10 (tv_notarizedAt tv) in
  if negb (str_eqb (tv_notarizedDate tv) dateFromTimestamp)
  then Invalid (EDateMismatch (tv_notarizedDate tv) dateFromTimestamp) else
  match JSON_parse (utf8_decode rawData) with
  | None => Invalid EBodyNotJson
  | Some (JObject parsed) =>
  let bodyKeys := object_keys parsed in
  if negb (len bodyKeys =? EXPECTED_BODY_FIELD_COUNT)
  then Invalid (EBodyFieldCount (len bodyKeys)) else
  match body_string (js_get parsed (lit "hash")) SHA256_HEX with
  | None => Invalid EBodyHash | Some hash =>
  match body_string (js_get parsed (lit "namespace")) NAMESPACE with
  | None => Invalid EBodyNamespace | Some namespace =>
  match body_string (js_get parsed (lit "notarized_at")) ISO8601 with
  | None => Invalid EBodyNotarizedAt | Some notarized_at =>
  match body_string (js_get parsed (lit "sdk_version")) SEMVER with
  | None => Invalid EBodySdkVersion | Some sdk_version =>
  match js_get parsed (lit "v") with
  | Some (JString v) =>
  if negb (str_eqb v (lit "1")) then Invalid EBodyV else
  (* Cross-validate tags against body *)
  if negb (str_eqb (tv_hash tv) hash) then Invalid EHashMismatch else
  if negb (str_eqb (tv_namespace tv) namespace) then Invalid ENamespaceMismatch else
  if negb (str_eqb (tv_notarizedAt tv) notarized_at) then Invalid ENotarizedAtMismatch else
  if negb (str_eqb sdkVersionTag sdk_version) then Invalid ESdkVersionMismatch else
  Valid
  | _ => Invalid EBodyV
  end end end end end
  | Some _ => Invalid EBodyNotObject
  end end
  end.

(** [handler] of [verify.ts] without the signature check: decode, then
    validate with [totalSize = buffer.length]. *)
Inductive PipelineResult :=
| PDecodeError (e : ParseError)
| PDiverge
| PValidated (r : ValidationResult).

Definition decodeThenValidate (sha256 : bytes -> bytes) (fuel : nat) (buffer : bytes)
  : PipelineResult :=
  match parseDataItem sha256 fuel buffer with
  | Throw e => PDecodeError e
  | Diverge => PDiverge
  | Ok p =>
      PValidated (validateDataItem (pd_signatureType p) (pd_tags p) (pd_rawData p)
                    (len buffer) (pd_target p) (pd_anchor p))
  end.

End Validate.

(** The order the specification states the minimum version in: a triple is
    below another when it is lexicographically smaller. *)
Definition semver_lt (a b : Z * Z * Z) : Prop :=
  let '(a0, a1, a2) := a in
  let '(b0, b1, b2) := b in
  a0 < b0 \/ (a0 = b0 /\ (a1 < b1 \/ (a1 = b1 /\ a2 < b2))).

(** The Avro encoding of a [long] [n >= 0]: the zig-zag value [2 n] as a
    varint, low 7-bit groups first, the high bit set on every byte but the
    last; [k] bounds the number of continuation bytes. *)
Fixpoint varint_bytes (k : nat) (m : Z) : bytes :=
  match k with
  | O => [m]
  | S k' => if m <? 128 then [m] else (m mod 128 + 128) :: varint_bytes k' (m / 128)
  end.

Definition avro_long (n : Z) : bytes := varint_bytes 4 (2 * n).

(** One tag of an Avro [array<record{name: bytes, value: bytes}>]. *)
Definition avro_tag (t : bytes * bytes) : bytes :=
  let '(nb, vb) := t in avro_long (len nb) ++ nb ++ avro_long (len vb) ++ vb.

(** A tag array as one block holding every tag, then the end marker. *)
Definition avro_encode_tags (ts : list (bytes * bytes)) : bytes :=
  avro_long (len ts) ++ flat_map avro_tag ts ++ [0].

(** The tag a name and value of raw bytes are expected to decode to. *)
Definition decoded_tag (t : bytes * bytes) : Tag :=
  let '(nb, vb) := t in mkTag (utf8_decode nb) (utf8_decode vb).

(** Name and value lengths that the 32-bit varint reader can represent. *)
Definition tag_fits (t : bytes * bytes) : Prop :=
  len (fst t) < 2 ^ 30 /\ len (snd t) < 2 ^ 30.

(* ------------------------------------------------------------------------- *)
(** ** Configuration ([config] of [src/unnamed/part_000]) *)

(** [required(name)]: the value of the environment variable, or a throw
    (here [None]) when it is unset or empty. *)
Definition required (value : option jsstring) : option jsstring :=
  match value with
  | Some ((_ :: _) as v) => Some v
  | _ => None
  end.

(** [process.env.API_KEY || undefined] *)
Definition config_apiKey (env_API_KEY : option jsstring) : option jsstring :=
  match env_API_KEY with
  | Some ((_ :: _) as k) => Some k
  | _ => None
  end.

(* ------------------------------------------------------------------------- *)
(** ** [Buffer.from(string)] and [buffer.toString("base64")] *)

(** UTF-8 encoding of one code point as Node writes it; a lone surrogate
    (U+D800 to U+DFFF) becomes U+FFFD. *)
Definition utf8_encode_cp (c : Z) : bytes :=
  if c <? 0x80 then [c]
  else if c <? 0x800 then [0xC0 + c / 64; 0x80 + c mod 64]
  else if (0xD800 <=? c) && (c <=? 0xDFFF) then [0xEF; 0xBF; 0xBD]
  else if c <? 0x10000 then [0xE0 + c / 4096; 0x80 + (c / 64) mod 64; 0x80 + c mod 64]
  else [0xF0 + c / 262144; 0x80 + (c / 4096) mod 64; 0x80 + (c / 64) mod 64;
        0x80 + c mod 64].

(** [Buffer.from(s)] (default encoding "utf8"). *)
Definition utf8_encode (s : jsstring) : bytes := flat_map utf8_encode_cp s.

(** The standard base64 alphabet. *)
Definition b64_char (i : Z) : Z :=
  if i =? 62 then 43 else if i =? 63 then 47 else b64url_char i.

(** [buffer.toString("base64")]: padded with [=]. *)
Fixpoint base64 (l : bytes) : jsstring :=
  match l with
  | a :: b :: c :: r =>
      let n := a * 65536 + b * 256 + c in
      map b64_char [n / 262144; (n / 4096) mod 64; (n / 64) mod 64; n mod 64]
      ++ base64 r
  | [a; b] =>
      let n := a * 65536 + b * 256 in
      map b64_char [n / 262144; (n / 4096) mod 64; (n / 64) mod 64] ++ [61]
  | [a] =>
      let n := a * 65536 in
      map b64_char [n / 262144; (n / 4096) mod 64] ++ [61; 61]
  | [] => []
  end.

(* ------------------------------------------------------------------------- *)
(** ** The verify endpoint ([src/src/handlers/verify.ts]) *)

(** [crypto.timingSafeEqual(a, b)] on buffers of equal length. *)
Definition timingSafeEqual (a b : bytes) : bool := str_eqb a b.

(** [checkApiKey(provided, expected)]; [None] is [undefined]. *)
Definition checkApiKey (provided : option jsstring) (expected : jsstring) : bool :=
  match provided with
  | None | Some [] => false
  | Some p =>
      let a := utf8_encode p in
      let b := utf8_encode expected in
      if negb (len a =? len b) then false else timingSafeEqual a b
  end.

(** The JSON bodies [response] builds, one per call site of [handler]. *)
Inductive HandlerBody :=
| BUnauthorized
| BMissingBody
| BInvalidDataItem (e : ParseError)
| BSignatureFailed
| BValidationError (e : ValidationError)
| BInternalError
| BId (id : jsstring).

(** [response(statusCode, body)] *)
Record Response := mkResponse { statusCode : Z; resp_body : HandlerBody }.

(** The parts of [APIGatewayProxyEventV2] the handler reads. *)
Record Event := mkEvent {
  ev_apiKey : option jsstring;       (* event.headers["x-api-key"] *)
  ev_body : option jsstring;         (* event.body *)
  ev_isBase64Encoded : bool          (* event.isBase64Encoded *)
}.

(** A message handed to SQS: the queue URL and the message body. *)
Definition SqsMessage := (jsstring * jsstring)%type.

Section Handler.

Variable sha256 : bytes -> bytes.
(** Bound on the iterations of [decodeAvroTags], as for [parseDataItem]. *)
Variable fuel : nat.
Variable JSON_parse : jsstring -> option json.
(** [Buffer.from(body, isBase64Encoded ? "base64" : "binary")] *)
Variable decodeBody : jsstring -> bool -> bytes.
(** [await parsed.isValid()]: [None] when the promise rejects. *)
Variable isValidOf : ParsedDataItem -> option bool.
(** [await sqsClient.send(...)] with a queue URL and a message body:
    [false] when it rejects. *)
Variable sqs_send : jsstring -> jsstring -> bool.
(** [process.env.API_KEY] and [process.env.SQS_QUEUE_URL] *)
Variable env_API_KEY : option jsstring.
Variable env_SQS_QUEUE_URL : option jsstring.

(** [handler(event)]: the response and the message sent to SQS, or [None]
    when the decoder does not terminate.  Each [throw] inside the [try]
    block becomes the 500 response of its [catch]. *)
Definition handler (event : Event) : option (Response * option SqsMessage) :=
  let authorized :=
    match config_apiKey env_API_KEY with
    | Some k => checkApiKey (ev_apiKey event) k
    | None => true
    end in
  if negb authorized then Some (mkResponse 401 BUnauthorized, None) else
  match ev_body event with
  | None | Some [] => Some (mkResponse 400 BMissingBody, None)
  | Some body =>
  let buffer := decodeBody body (ev_isBase64Encoded event) in
  match parseDataItem sha256 fuel buffer with
  | Diverge => None
  | Throw e => Some (mkResponse 400 (BInvalidDataItem e), None)
  | Ok parsed =>
  match isValidOf parsed with
  | None => Some (mkResponse 500 BInternalError, None)
  | Some false => Some (mkResponse 400 BSignatureFailed, None)
  | Some true =>
  match validateDataItem JSON_parse (pd_signatureType parsed) (pd_tags parsed)
          (pd_rawData parsed) (len buffer) (pd_target parsed) (pd_anchor parsed) with
  | Invalid e => Some (mkResponse 400 (BValidationError e), None)
  | Valid =>
  match required env_SQS_QUEUE_URL with
  | None => Some (mkResponse 500 BInternalError, None)
  | Some queueUrl =>
  let messageBody := base64 buffer in
  if sqs_send queueUrl messageBody
  then Some (mkResponse 200 (BId (pd_id parsed)), Some (queueUrl, messageBody))
  else Some (mkResponse 500 BInternalError, None)
  end end end end
  end.

End Handler.

(* ------------------------------------------------------------------------- *)
(** ** The owner-modulus cache ([getOwnerModulus] of [kms-signer.ts]) *)

(** The module variables [cachedOwner] and [cachedKeyArn]. *)
Record KmsCache := mkKmsCache {
  cachedOwner : option bytes;
  cachedKeyArn : option jsstring
}.

Definition emptyKmsCache : KmsCache := mkKmsCache None None.

(** [cachedKeyArn === kmsKeyArn] *)
Definition opt_str_eqb (a : option jsstring) (b : jsstring) : bool :=
  match a with Some a' => str_eqb a' b | None => false end.

Section KmsCacheSec.

(** GetPublicKey on KMS, [createPublicKey], the JWK export and the base64url
    decoding of [jwk.n]: the modulus of the key, [None] when one of them
    throws. *)
Variable fetchModulus : jsstring -> option bytes.

(** [getOwnerModulus(kmsKeyArn)]: the result ([None] when it throws), the
    new cache, and whether KMS was called.  A [Buffer] is truthy even when
    empty. *)
Definition getOwnerModulus (st : KmsCache) (kmsKeyArn : jsstring)
  : option bytes * KmsCache * bool :=
  match cachedOwner st with
  | Some o =>
      if opt_str_eqb (cachedKeyArn st) kmsKeyArn then (Some o, st, false)
      else match fetchModulus kmsKeyArn with
           | None => (None, st, true)
           | Some m => (Some m, mkKmsCache (Some m) (Some kmsKeyArn), true)
           end
  | None =>
      match fetchModulus kmsKeyArn with
      | None => (None, st, true)
      | Some m => (Some m, mkKmsCache (Some m) (Some kmsKeyArn), true)
      end
  end.

(** Successive calls in one warm Lambda container. *)
Fixpoint getOwnerModulus_calls (st : KmsCache) (arns : list jsstring)
  : list (option bytes) * KmsCache :=
  match arns with
  | [] => ([], st)
  | a :: r =>
      let '(res, st', _) := getOwnerModulus st a in
      let '(rs, st'') := getOwnerModulus_calls st' r in
      (res :: rs, st'')
  end.

End KmsCacheSec.

(* ------------------------------------------------------------------------- *)
(** ** Predicates used to state properties *)

(** A Unicode scalar value: a code point that is not a surrogate. *)
Definition unicode_scalar (c : Z) : Prop :=
  0 <= c <= 0x10FFFF /\ ~ (0xD800 <= c <= 0xDFFF).

(** The characters of the URL-safe base64 alphabet: [A-Za-z0-9-_]. *)
Definition url_safe_char (c : Z) : bool :=
  is_digit c || ((65 <=? c) && (c <=? 90)) || ((97 <=? c) && (c <=? 122))
  || (c =? 45) || (c =? 95).

(** A cache whose stored modulus is the one KMS gives for the stored ARN. *)
Definition cache_consistent (fetchModulus : jsstring -> option bytes) (st : KmsCache) : Prop :=
  forall o, cachedOwner st = Some o ->
  exists a, cachedKeyArn st = Some a /\ fetchModulus a = Some o.


(* ========================================================================= *)
(** * Sample inputs *)

(** A stand-in for SHA-256 with 32-byte digests. *)
Definition sample_sha256 (b : bytes) : bytes := repeat 0 32.

(** [n] as 8 little-endian bytes. *)
Definition le8 (n : Z) : bytes := map (fun i => (n / 256 ^ Z.of_nat i) mod 256) (seq 0 8).

(** Signature type 1, then a 512-byte signature and a 512-byte owner. *)
Definition sample_prefix : bytes := [1; 0] ++ repeat 5 1024.

(** A DataItem with target flag 2, a 32-byte field after it, no tags and a
    15-byte payload. *)
Definition flag2_item : bytes :=
  sample_prefix ++ [2] ++ ([0] ++ le8 0 ++ le8 0 ++ repeat 9 15).

(** No target, no anchor, no tags, and a tag region of one byte [0x80]. *)
Definition truncated_varint_item : bytes :=
  sample_prefix ++ [0; 0] ++ le8 0 ++ le8 1 ++ [0x80].

(** Target flag 2, anchor flag 0, no tags, no payload. *)
Definition flag2_empty_item : bytes := sample_prefix ++ [2; 0] ++ le8 0 ++ le8 0.

(** No target, an anchor of 32 NUL bytes, no tags. *)
Definition nul_anchor_item : bytes :=
  sample_prefix ++ [0; 1] ++ repeat 0 32 ++ le8 0 ++ le8 0.

(** No target, an anchor of 32 bytes [A], no tags. *)
Definition text_anchor_item : bytes :=
  sample_prefix ++ [0; 1] ++ repeat 65 32 ++ le8 0 ++ le8 0.

(** One tag whose name is the invalid UTF-8 byte [0xFF] and whose value is [A]. *)
Definition invalid_utf8_item : bytes :=
  sample_prefix ++ [0; 0] ++ le8 1 ++ le8 6 ++ [0x02; 0x02; 0xFF; 0x02; 0x41; 0x00].

Definition sample_hex : jsstring := repeat 97 64.
Definition sample_at : jsstring := lit "2024-06-01T12:34:56.789+00:00".

(** The nine tags of a notarisation receipt with SDK version [ver]. *)
Definition sample_tags (ver : string) : list Tag :=
  [mkTag (lit "App-Name") (lit "agentsystems-notary");
   mkTag (lit "Content-Type") (lit "application/json");
   mkTag (lit "Hash") sample_hex;
   mkTag (lit "Namespace") sample_hex;
   mkTag (lit "Session-ID") (lit "123e4567-E89B-12d3-a456-426614174000");
   mkTag (lit "Sequence") (lit "0");
   mkTag (lit "Notarized-At") sample_at;
   mkTag (lit "Notarized-Date-UTC") (lit "2024-06-01");
   mkTag (lit "SDK-Version") (lit ver)].

(** The payload object matching [sample_tags ver]. *)
Definition sample_body (ver : string) : json :=
  JObject [(lit "v", JString (lit "1")); (lit "hash", JString sample_hex);
           (lit "namespace", JString sample_hex); (lit "notarized_at", JString sample_at);
           (lit "sdk_version", JString (lit ver))].

(** A [JSON.parse] that reads every payload as [sample_body "0.2.0"]. *)
Definition sample_json_parse (s : jsstring) : option json := Some (sample_body "0.2.0").

(** The decoded item of a sample blob (an empty record if it does not decode). *)
Definition sample_parsed (buf : bytes) : ParsedDataItem :=
  match parseDataItem sample_sha256 1 buf with
  | Ok p => p
  | _ => mkParsed [] 0 [] None None [] [] [] [] None None []
  end.

(** The tag values [validate_tags] extracts from [sample_tags ver]. *)
Definition sample_tag_values (ver : string) : TagValues :=
  match validate_tags 1 (sample_tags ver) 1000 None None with
  | inr tv => tv
  | inl _ => mkTagValues [] [] [] [] []
  end.

(** A DataItem with no target, no anchor, the nine tags of
    [sample_tags "0.2.0"] and the payload [{}]. *)
Definition valid_item : bytes :=
  let tb := avro_encode_tags (map (fun t => (tag_name t, tag_value t)) (sample_tags "0.2.0")) in
  sample_prefix ++ [0; 0] ++ le8 9 ++ le8 (len tb) ++ tb ++ lit "{}".

(** A request carrying the API key [key] and a base64 body. *)
Definition sample_event : Event := mkEvent (Some (lit "key")) (Some (lit "body")) true.

(** The handler with API key [key], queue [queue], a body that decodes to
    [valid_item], a passing signature check and a successful SQS send. *)
Definition sample_handler_run : option (Response * option SqsMessage) :=
  handler sample_sha256 2 sample_json_parse (fun _ _ => valid_item) (fun _ => Some true)
    (fun _ _ => true) (Some (lit "key")) (Some (lit "queue")) sample_event.

Definition sample_response : Response :=
  match sample_handler_run with Some (r, _) => r | None => mkResponse 0 BInternalError end.

Definition sample_message : option SqsMessage :=
  match sample_handler_run with Some (_, m) => m | None => None end.


(* ========================================================================= *)
(** * Properties *)

(* ------------------------------------------------------------------------- *)
(** ** Little-endian fields and the bundle framing *)

Lemma land_toInt32_255 (x : Z) : Z.land (toInt32 x) 255 = x mod 256.
Proof.
  change 255 with (Z.ones 8). rewrite Z.land_ones by lia.
  change (2 ^ 8) with 256. unfold toInt32.
  assert (Hm : (x mod 2 ^ 32) mod 256 = x mod 256).
  { apply Z.mod_mod_divide. exists (2 ^ 24). reflexivity. }
  destruct (x mod 2 ^ 32 <? 2 ^ 31); [exact Hm |].
  rewrite <- Hm. replace (x mod 2 ^ 32 - 2 ^ 32) with (x mod 2 ^ 32 + (-16777216) * 256) by lia.
  apply Z.mod_add. lia.
Qed.

Definition lowbytes (k : nat) (n : Z) : bytes :=
  map (fun i => (n / 256 ^ Z.of_nat i) mod 256) (seq 0 k).

Lemma list_set_middle (l1 l2 : list Z) (x v : Z) :
  list_set (l1 ++ x :: l2) (length l1) v = l1 ++ v :: l2.
Proof. induction l1 as [| y l1 IH]; simpl; [reflexivity | now rewrite IH]. Qed.

Lemma div_pow256_S (n : Z) (i : nat) :
  n / 256 ^ Z.of_nat i / 256 = n / 256 ^ Z.of_nat (S i).
Proof.
  rewrite Z.div_div by lia. f_equal. rewrite Nat2Z.inj_succ, Z.pow_succ_r by lia. lia.
Qed.

Lemma div_pow256_zero (n : Z) (i j : nat) :
  0 <= n -> n / 256 ^ Z.of_nat i = 0 -> (i <= j)%nat -> n / 256 ^ Z.of_nat j = 0.
Proof.
  intros Hn Hz Hij. induction Hij as [| j Hij IH]; [exact Hz |].
  rewrite <- div_pow256_S, IH. reflexivity.
Qed.

Lemma lowbytes_zero_tail (n : Z) (i k : nat) :
  0 <= n -> n / 256 ^ Z.of_nat i = 0 ->
  map (fun j => (n / 256 ^ Z.of_nat j) mod 256) (seq i k) = repeat 0 k.
Proof.
  intros Hn Hz. revert i Hz. induction k as [| k IH]; intros i Hz; [reflexivity |].
  simpl. rewrite Hz, (IH (S i)); [reflexivity |].
  rewrite <- div_pow256_S, Hz. reflexivity.
Qed.

Lemma longTo32_loop_spec (n : Z) (k i : nat) (buf : list Z) :
  0 <= n -> (i + k = 8)%nat ->
  buf = lowbytes i n ++ repeat 0 (32 - i) ->
  longTo32_loop k i (n / 256 ^ Z.of_nat i) buf = lowbytes 8 n ++ repeat 0 24.
Proof.
  intros Hn. revert i buf.
  induction k as [| k IH]; intros i buf Hik Hbuf; cbn [longTo32_loop].
  - replace i with 8%nat in Hbuf by lia. exact Hbuf.
  - assert (Hge : 0 <= n / 256 ^ Z.of_nat i) by (apply Z.div_pos; lia).
    destruct (0 <? n / 256 ^ Z.of_nat i) eqn:Hpos.
    + rewrite div_pow256_S. apply IH; [lia |].
      rewrite Hbuf, land_toInt32_255.
      replace (32 - i)%nat with (S (31 - i)) by lia.
      change (repeat 0 (S (31 - i))) with (0 :: repeat 0 (31 - i)).
      assert (Hl : length (lowbytes i n) = i)
        by (unfold lowbytes; now rewrite length_map, length_seq).
      pose proof (list_set_middle (lowbytes i n) (repeat 0 (31 - i)) 0
                    ((n / 256 ^ Z.of_nat i) mod 256)) as E.
      rewrite Hl in E. rewrite E.
      unfold lowbytes. rewrite seq_S, map_app, <- app_assoc. simpl.
      replace (32 - S i)%nat with (31 - i)%nat by lia. reflexivity.
    + assert (Hz : n / 256 ^ Z.of_nat i = 0) by (apply Z.ltb_ge in Hpos; lia).
      rewrite Hbuf. unfold lowbytes.
      replace (seq 0 8) with (seq 0 (i + (8 - i))) by (f_equal; lia).
      rewrite seq_app, map_app, <- app_assoc, Nat.add_0_l.
      rewrite (lowbytes_zero_tail n i (8 - i) Hn Hz), <- repeat_app.
      f_equal. f_equal. lia.
Qed.

Lemma longTo32ByteArray_spec (n : Z) : 0 <= n -> longTo32ByteArray n = spec_le32 n.
Proof.
  intros Hn. unfold longTo32ByteArray, spec_le32.
  pose proof (longTo32_loop_spec n 8 0 (repeat 0 32) Hn eq_refl eq_refl) as H.
  change (256 ^ Z.of_nat 0) with 1 in H. rewrite Z.div_1_r in H. exact H.
Qed.

Lemma spec_le32_length (n : Z) : length (spec_le32 n) = 32%nat.
Proof. unfold spec_le32. rewrite length_app, length_map, length_seq, repeat_length. reflexivity. Qed.

Lemma subarray_signature (b : bytes) :
  (514 <= length b)%nat -> subarray b 2 514 = firstn 512 (skipn 2 b).
Proof.
  intros H. unfold subarray, rel_index, len. simpl.
  rewrite !Z.min_l by lia. reflexivity.
Qed.

Lemma concat_flat_map_pair {A} (f g : A -> bytes) (L : list A) :
  concat (flat_map (fun x => [f x; g x]) L) = concat (map (fun x => f x ++ g x) L).
Proof.
  induction L as [| x L IH]; [reflexivity |].
  simpl. rewrite IH, app_assoc. reflexivity.
Qed.

Definition sum_lengths (L : list bytes) : Z := fold_right (fun b acc => len b + acc) 0 L.

(** C1: [assembleBundle] emits the 32-byte count, then per item its 32-byte
    length and the 32-byte SHA-256 of bytes [2, 514), then the items
    verbatim and in order; its length is [32 + 64 |L| + sum |L[i]|]. *)
Theorem assembleBundle_framing (sha256 : bytes -> bytes) (L : list bytes)
    (Hsha : forall x, length (sha256 x) = 32%nat)
    (HL : Forall (fun b => (514 <= length b)%nat) L) :
  assembleBundle sha256 L = spec_bundle sha256 L /\
  len (assembleBundle sha256 L) = 32 + 64 * len L + sum_lengths L.
Proof.
  assert (Heq : assembleBundle sha256 L = spec_bundle sha256 L).
  { unfold assembleBundle, spec_bundle. rewrite concat_app. cbn [concat]. rewrite <- app_assoc.
    rewrite longTo32ByteArray_spec by (unfold len; lia).
    rewrite concat_flat_map_pair. f_equal. f_equal. f_equal.
    apply map_ext_in. intros b Hb.
    rewrite Forall_forall in HL. specialize (HL b Hb).
    rewrite longTo32ByteArray_spec by (unfold len; lia).
    rewrite subarray_signature by exact HL. reflexivity. }
  split; [exact Heq |]. rewrite Heq. unfold spec_bundle, len.
  rewrite !length_app, spec_le32_length.
  assert (Hidx : length (concat (map (fun b => spec_le32 (Z.of_nat (length b))
                                        ++ sha256 (firstn 512 (skipn 2 b))) L))
                 = (64 * length L)%nat).
  { clear Heq. induction L as [| b L IH]; [reflexivity |].
    cbn [map concat]. rewrite !length_app, spec_le32_length, Hsha, IH by (inversion HL; auto).
    cbn [length]. lia. }
  assert (Hdat : Z.of_nat (length (concat L)) = sum_lengths L).
  { clear. induction L as [| b L IH]; [reflexivity |].
    simpl. rewrite length_app, Nat2Z.inj_add, IH. reflexivity. }
  unfold len in Hidx. rewrite Hidx, !Nat2Z.inj_add, Hdat. lia.
Qed.

(* ------------------------------------------------------------------------- *)
(** ** Shape of a successful decode *)

(** Case analysis on the branches of a hypothesis, one test at a time;
    matches on pairs are left to [cbv] once their test is decided. *)
Ltac crunch H :=
  repeat (cbv beta iota zeta in H;
          match type of H with
          | context [match ?x with _ => _ end] =>
              lazymatch type of x with
              | prod _ _ => fail
              | _ => let E := fresh "E" in destruct x eqn:E; try discriminate H
              end
          end).

(** Evaluates sums of numerals everywhere. *)
Ltac fold_consts :=
  repeat match goal with
         | H : context [Zpos ?a + Zpos ?b] |- _ =>
             let c := eval vm_compute in (Zpos a + Zpos b) in
             change (Zpos a + Zpos b) with c in H
         | |- context [Zpos ?a + Zpos ?b] =>
             let c := eval vm_compute in (Zpos a + Zpos b) in
             change (Zpos a + Zpos b) with c
         end.

Lemma readUIntLE_Some (n : Z) (b : bytes) (off v : Z) :
  readUIntLE n b off = Some v -> 0 <= off /\ off + n <= len b.
Proof.
  unfold readUIntLE. destruct (off <? 0) eqn:E1, (len b <? off + n) eqn:E2;
    simpl; try discriminate. intros _. lia.
Qed.

(** Where the anchor flag sits, and where the tag count field starts. *)
Definition anchorFlagOffset (buf : bytes) : Z :=
  if flag_is_one (byte_at buf 1026) then 1059 else 1027.

Definition tagHeaderOffset (buf : bytes) : Z :=
  let o := anchorFlagOffset buf in
  if flag_is_one (byte_at buf o) then o + 33 else o + 1.

Lemma parseDataItem_Ok (sha256 : bytes -> bytes) (fuel : nat) (buf : bytes)
    (p : ParsedDataItem) :
  parseDataItem sha256 fuel buf = Ok p ->
  let t := flag_is_one (byte_at buf 1026) in
  let o := anchorFlagOffset buf in
  let a := flag_is_one (byte_at buf o) in
  let h := tagHeaderOffset buf in
  readUInt16LE buf 0 = Some 1 /\ h + 16 <= len buf /\
  pd_signatureType p = 1 /\
  pd_signature p = subarray buf 2 514 /\
  pd_id p = base64url (sha256 (subarray buf 2 514)) /\
  pd_ownerBytes p = subarray buf 514 1026 /\
  pd_targetBytes p = (if t then Some (subarray buf 1027 1059) else None) /\
  pd_target p = option_map base64url (pd_targetBytes p) /\
  pd_anchorBytes p = (if a then Some (subarray buf (o + 1) (o + 33)) else None) /\
  pd_anchor p = match pd_anchorBytes p with Some x => anchorToString x | None => None end /\
  exists tagBytesLength,
    readBigUInt64LE buf (h + 8) = Some tagBytesLength /\
    pd_tagBytes p = subarray buf (h + 16) (h + 16 + tagBytesLength) /\
    pd_rawData p = subarray_from buf (h + 16 + tagBytesLength).
Proof.
  intros H. unfold parseDataItem in H. crunch H.
  all: fold_consts; injection H as <-.
  all: apply negb_false_iff, Z.eqb_eq in E0; subst.
  all: unfold tagHeaderOffset, anchorFlagOffset; cbv beta zeta; rewrite E1;
       cbv beta iota; fold_consts; rewrite E2; cbv beta iota; fold_consts.
  all: pose proof (readUIntLE_Some _ _ _ _ E4).
  all: split; [reflexivity | split; [lia |]].
  all: do 8 (split; [reflexivity |]); eexists; split; [exact E4 | split; reflexivity].
Qed.

Lemma parseDataItem_Ok_length (sha256 : bytes -> bytes) (fuel : nat) (buf : bytes)
    (p : ParsedDataItem) :
  parseDataItem sha256 fuel buf = Ok p -> 1043 <= len buf.
Proof.
  intros H. destruct (parseDataItem_Ok _ _ _ _ H) as [_ [Hl _]].
  revert Hl. unfold tagHeaderOffset, anchorFlagOffset.
  destruct (flag_is_one (byte_at buf 1026)); destruct (flag_is_one _); lia.
Qed.

(** C4: a successfully decoded DataItem's identifier is the unpadded
    base64url of SHA-256 over the 512 signature bytes at [2, 514), and two
    decoded blobs that agree on those bytes have the same identifier. *)
Theorem parseDataItem_identifier (sha256 : bytes -> bytes) (fuel : nat) (buf : bytes)
    (p : ParsedDataItem) (H : parseDataItem sha256 fuel buf = Ok p) :
  (514 <= length buf)%nat /\
  length (firstn 512 (skipn 2 buf)) = 512%nat /\
  pd_id p = base64url (sha256 (firstn 512 (skipn 2 buf))) /\
  (forall fuel' buf' p',
     parseDataItem sha256 fuel' buf' = Ok p' ->
     firstn 512 (skipn 2 buf') = firstn 512 (skipn 2 buf) ->
     pd_id p' = pd_id p).
Proof.
  assert (Hid : forall f b q, parseDataItem sha256 f b = Ok q ->
                (514 <= length b)%nat /\
                pd_id q = base64url (sha256 (firstn 512 (skipn 2 b)))).
  { intros f b q Hq. pose proof (parseDataItem_Ok_length _ _ _ _ Hq) as Hl.
    unfold len in Hl. destruct (parseDataItem_Ok _ _ _ _ Hq) as (_ & _ & _ & _ & Hi & _).
    split; [lia |]. rewrite Hi, subarray_signature by lia. reflexivity. }
  destruct (Hid _ _ _ H) as [Hl Hi]. split; [exact Hl |]. split.
  - rewrite length_firstn, length_skipn. lia.
  - split; [exact Hi |]. intros fuel' buf' p' H' Heq.
    destruct (Hid _ _ _ H') as [_ Hi']. rewrite Hi', Hi, Heq. reflexivity.
Qed.

(* ------------------------------------------------------------------------- *)
(** ** The tag map and the parsed body *)

Lemma str_eqb_eq (a b : jsstring) : str_eqb a b = true <-> a = b.
Proof. unfold str_eqb. destruct (list_eq_dec Z.eq_dec a b); split; congruence. Qed.

Lemma str_eqb_refl (a : jsstring) : str_eqb a a = true.
Proof. apply str_eqb_eq. reflexivity. Qed.

Lemma map_has_false (m : TagMap) (k : jsstring) :
  map_has m k = false <-> ~ In k (map fst m).
Proof.
  unfold map_has. induction m as [| [k' v] m IH]; simpl; [tauto |].
  rewrite orb_false_iff, IH. destruct (str_eqb k' k) eqn:E.
  - apply str_eqb_eq in E. subst. intuition discriminate.
  - split; [intros [_ Hn] [Heq | Hin]; [subst; rewrite str_eqb_refl in E; discriminate | tauto] |].
    intros Hn. split; [reflexivity | tauto].
Qed.

Definition tag_pair (t : Tag) : jsstring * jsstring := (tag_name t, tag_value t).

Lemma buildTagMap_inl (m0 : TagMap) (tags : list Tag) (m : TagMap) :
  NoDup (map fst m0) ->
  buildTagMap m0 tags = inl m ->
  m = m0 ++ map tag_pair tags /\ NoDup (map fst m0 ++ map tag_name tags).
Proof.
  revert m0. induction tags as [| t tags IH]; intros m0 Hnd H; simpl in H.
  - injection H as <-. rewrite !app_nil_r. auto.
  - destruct (map_has m0 (tag_name t)) eqn:Eh; [discriminate |].
    unfold map_set in H. rewrite Eh in H.
    apply map_has_false in Eh.
    assert (Hnd' : NoDup (map fst (m0 ++ [(tag_name t, tag_value t)]))).
    { rewrite map_app. simpl. apply NoDup_app; auto using NoDup_cons, NoDup_nil.
      intros x Hx [Hy | []]. subst. tauto. }
    destruct (IH _ Hnd' H) as [Hm Hn]. rewrite map_app, <- app_assoc in Hn.
    rewrite <- app_assoc in Hm. split; [exact Hm | exact Hn].
Qed.

Lemma buildTagMap_nodup (m0 : TagMap) (tags : list Tag) :
  NoDup (map fst m0 ++ map tag_name tags) ->
  buildTagMap m0 tags = inl (m0 ++ map tag_pair tags).
Proof.
  revert m0. induction tags as [| t tags IH]; intros m0 Hnd; simpl.
  - rewrite app_nil_r. reflexivity.
  - assert (Hn : ~ In (tag_name t) (map fst m0)).
    { intros Hin. simpl in Hnd. apply NoDup_remove_2 in Hnd.
      apply Hnd, in_or_app; auto. }
    pose proof Hn as Hf. apply map_has_false in Hf. rewrite Hf.
    unfold map_set. rewrite Hf.
    rewrite (IH (m0 ++ [(tag_name t, tag_value t)])).
    + rewrite <- app_assoc. reflexivity.
    + rewrite map_app, <- app_assoc. exact Hnd.
Qed.

Lemma map_get_Some_In (m : TagMap) (k v : jsstring) :
  map_get m k = Some v -> In (k, v) m.
Proof.
  induction m as [| [k' v'] m IH]; simpl; [discriminate |].
  destruct (str_eqb k' k) eqn:E; intros H.
  - apply str_eqb_eq in E. injection H as <-. subst. auto.
  - auto.
Qed.

Lemma tag_format_Some (x : option jsstring) (re : jsstring -> bool) (s : jsstring) :
  tag_format x re = Some s -> x = Some s /\ re s = true.
Proof.
  unfold tag_format. destruct x as [[| c r] |]; try discriminate.
  destruct (re (c :: r)) eqn:E; [| discriminate]. intros H. injection H as <-. auto.
Qed.

Lemma tag_literal_true (x : option jsstring) (e : string) :
  tag_literal x e = true -> x = Some (lit e).
Proof.
  unfold tag_literal. destruct x; [| discriminate]. intros H.
  apply str_eqb_eq in H. subst. reflexivity.
Qed.

Lemma js_get_Some_In (ms : list (jsstring * json)) (k : jsstring) (v : json) :
  js_get ms k = Some v -> In k (map fst ms).
Proof.
  revert v. induction ms as [| [k' v'] ms IH]; intros v; simpl; [discriminate |].
  destruct (js_get ms k) eqn:E.
  - intros _. right. apply (IH j). reflexivity.
  - destruct (str_eqb k k') eqn:E2; [| discriminate].
    apply str_eqb_eq in E2. subst. auto.
Qed.

Lemma body_string_Some (x : option json) (re : jsstring -> bool) (s : jsstring) :
  body_string x re = Some s -> x = Some (JString s) /\ re s = true.
Proof.
  unfold body_string. destruct x as [[] |]; try discriminate.
  match goal with |- context [re ?t] => destruct (re t) eqn:E end; [| discriminate].
  intros H. injection H as <-. auto.
Qed.

Lemma map_get_tags_In (tags : list Tag) (k v : jsstring) :
  map_get (map tag_pair tags) k = Some v -> In (mkTag k v) tags.
Proof.
  intros H. apply map_get_Some_In, in_map_iff in H. destruct H as [[k' v'] [Heq Hin]].
  unfold tag_pair in Heq. simpl in Heq. injection Heq as -> ->. exact Hin.
Qed.

Definition required_tag_names : list jsstring :=
  map lit ["App-Name"; "Content-Type"; "Hash"; "Namespace"; "Session-ID"; "Sequence";
           "Notarized-At"; "Notarized-Date-UTC"; "SDK-Version"]%string.

Definition body_field_names : list jsstring :=
  map lit ["hash"; "namespace"; "notarized_at"; "sdk_version"; "v"]%string.

(** Unfolds [validate_tags] in an accepted run. *)
Lemma validate_tags_inr (signatureType : Z) (tags : list Tag) (totalSize : Z)
    (target anchor : option jsstring) (tv : TagValues) :
  validate_tags signatureType tags totalSize target anchor = inr tv ->
  totalSize <= MAX_DATA_ITEM_SIZE /\ signatureType = 1 /\ target = None /\ anchor = None /\
  length tags = 9%nat /\ NoDup (map tag_name tags) /\
  (forall n, In n required_tag_names -> In n (map tag_name tags)) /\
  In (mkTag (lit "Hash") (tv_hash tv)) tags /\
  In (mkTag (lit "Namespace") (tv_namespace tv)) tags /\
  In (mkTag (lit "Notarized-At") (tv_notarizedAt tv)) tags /\
  In (mkTag (lit "Notarized-Date-UTC") (tv_notarizedDate tv)) tags /\
  In (mkTag (lit "SDK-Version") (tv_sdkVersion tv)) tags /\
  SEMVER (tv_sdkVersion tv) = true /\ ISO8601 (tv_notarizedAt tv) = true.
Proof.
  intros H. unfold validate_tags in H. crunch H. injection H as <-. simpl.
  apply buildTagMap_inl in E4; [| constructor]. destruct E4 as [-> Hnd].
  apply negb_false_iff, tag_literal_true, map_get_tags_In in E5, E6.
  repeat match goal with
         | E : tag_format _ _ = Some _ |- _ =>
             apply tag_format_Some in E; destruct E as [E ?]; apply map_get_tags_In in E
         end.
  rewrite Z.gtb_ltb, Z.ltb_ge in E. apply negb_false_iff, Z.eqb_eq in E0, E3.
  unfold len, EXPECTED_TAG_COUNT in E3.
  repeat split; try assumption; try lia.
  intros n Hn. apply in_map_iff.
  repeat destruct Hn as [<- | Hn]; try contradiction.
  all: match goal with H : In ?t _ |- exists x, _ => exists t; split; [reflexivity | exact H] end.
Qed.

Lemma body_field_names_NoDup : NoDup body_field_names.
Proof. vm_compute. repeat constructor; simpl; intuition discriminate. Qed.

Lemma object_keys_exact (ms : list (jsstring * json)) :
  len (object_keys ms) = EXPECTED_BODY_FIELD_COUNT ->
  (forall k, In k body_field_names -> In k (map fst ms)) ->
  forall k, In k (map fst ms) <-> In k body_field_names.
Proof.
  intros Hlen Hin k. unfold object_keys, len, EXPECTED_BODY_FIELD_COUNT in *.
  assert (Hincl : incl body_field_names (nodup (list_eq_dec Z.eq_dec) (map fst ms))).
  { intros x Hx. apply nodup_In. auto. }
  pose proof (NoDup_length_incl (l' := nodup (list_eq_dec Z.eq_dec) (map fst ms))
                body_field_names_NoDup) as Hl.
  split; [| auto].
  intros Hk. apply Hl; [apply Nat2Z.inj_le; rewrite (Z.eq_le_incl _ _ Hlen); unfold body_field_names; simpl; lia | exact Hincl |].
  apply nodup_In. exact Hk.
Qed.

(** C3 (schema totality): whenever [validateDataItem] answers [Valid], the tag
    list has exactly nine entries with pairwise distinct names covering the nine
    required names; the payload parses as a JSON object whose keys are exactly
    [hash], [namespace], [notarized_at], [sdk_version] and [v], all five strings,
    with [v = "1"]; and the [Hash], [Namespace], [Notarized-At] and [SDK-Version]
    tags carry exactly the body's [hash], [namespace], [notarized_at] and
    [sdk_version]. *)
Theorem validateDataItem_schema (JSON_parse : jsstring -> option json)
    (signatureType : Z) (tags : list Tag) (rawData : bytes) (totalSize : Z)
    (target anchor : option jsstring) :
  validateDataItem JSON_parse signatureType tags rawData totalSize target anchor = Valid ->
  length tags = 9%nat /\ NoDup (map tag_name tags) /\
  (forall n, In n required_tag_names -> In n (map tag_name tags)) /\
  exists ms hash namespace notarized_at sdk_version,
    JSON_parse (utf8_decode rawData) = Some (JObject ms) /\
    (forall k, In k (map fst ms) <-> In k body_field_names) /\
    js_get ms (lit "hash") = Some (JString hash) /\
    js_get ms (lit "namespace") = Some (JString namespace) /\
    js_get ms (lit "notarized_at") = Some (JString notarized_at) /\
    js_get ms (lit "sdk_version") = Some (JString sdk_version) /\
    js_get ms (lit "v") = Some (JString (lit "1")) /\
    In (mkTag (lit "Hash") hash) tags /\
    In (mkTag (lit "Namespace") namespace) tags /\
    In (mkTag (lit "Notarized-At") notarized_at) tags /\
    In (mkTag (lit "SDK-Version") sdk_version) tags.
Proof.
  intros H. unfold validateDataItem in H.
  destruct (validate_tags signatureType tags totalSize target anchor) as [e | tv] eqn:Ev;
    [discriminate |].
  apply validate_tags_inr in Ev.
  crunch H.
  destruct Ev as (_ & _ & _ & _ & Hlen & Hnd & Hreq & Hh & Hn & Hat & _ & Hsdk & _).
  apply body_string_Some in E5, E6, E7, E8.
  destruct E5 as [E5 _], E6 as [E6 _], E7 as [E7 _], E8 as [E8 _].
  apply negb_false_iff, str_eqb_eq in E11, E12, E13, E14, E15. subst.
  split; [exact Hlen |]. split; [exact Hnd |]. split; [exact Hreq |].
  assert (Hkeys : forall k, In k (map fst members) <-> In k body_field_names).
  { apply object_keys_exact; [apply Z.eqb_eq, negb_false_iff; exact E4 |].
    intros k Hk. unfold body_field_names in Hk. simpl in Hk.
    repeat destruct Hk as [<- | Hk]; try contradiction; eapply js_get_Some_In; eassumption. }
  exists members, (tv_hash tv), (tv_namespace tv), (tv_notarizedAt tv), (tv_sdkVersion tv).
  repeat split; try assumption; apply Hkeys; assumption.
Qed.

Lemma In_map_get (m : TagMap) (k v : jsstring) :
  NoDup (map fst m) -> In (k, v) m -> map_get m k = Some v.
Proof.
  induction m as [| [k' v'] m IH]; simpl; [contradiction |].
  intros Hnd Hin. inversion Hnd as [| ? ? Hnotin Hnd']. subst.
  destruct Hin as [Heq | Hin].
  - injection Heq as -> ->. rewrite str_eqb_refl. reflexivity.
  - destruct (str_eqb k' k) eqn:E.
    + apply str_eqb_eq in E. subst. exfalso. apply Hnotin.
      apply in_map_iff. exists (k, v). auto.
    + auto.
Qed.

Lemma map_get_Permutation (m m' : TagMap) (k : jsstring) :
  NoDup (map fst m) -> Permutation m m' -> map_get m' k = map_get m k.
Proof.
  intros Hnd Hp.
  assert (Hnd' : NoDup (map fst m')) by exact (Permutation_NoDup (Permutation_map fst Hp) Hnd).
  destruct (map_get m k) as [v |] eqn:E.
  - apply In_map_get; [exact Hnd' |]. apply (Permutation_in _ Hp), map_get_Some_In, E.
  - destruct (map_get m' k) as [v |] eqn:E'; [| reflexivity].
    apply map_get_Some_In, (Permutation_in _ (Permutation_sym Hp)), In_map_get in E';
      [congruence | exact Hnd].
Qed.

Lemma validate_tags_Permutation (signatureType : Z) (tags tags' : list Tag) (totalSize : Z)
    (target anchor : option jsstring) :
  Permutation tags tags' -> NoDup (map tag_name tags) ->
  validate_tags signatureType tags' totalSize target anchor =
  validate_tags signatureType tags totalSize target anchor.
Proof.
  intros Hp Hnd.
  assert (Hnd' : NoDup (map tag_name tags'))
    by exact (Permutation_NoDup (Permutation_map tag_name Hp) Hnd).
  assert (Hget : forall k, map_get (map tag_pair tags') k = map_get (map tag_pair tags) k).
  { intros k. apply map_get_Permutation; [| apply Permutation_map, Hp].
    rewrite map_map. exact Hnd. }
  unfold validate_tags, len.
  rewrite <- (Permutation_length Hp).
  rewrite (buildTagMap_nodup [] tags Hnd), (buildTagMap_nodup [] tags' Hnd').
  cbn [app]. rewrite !Hget. reflexivity.
Qed.

(** C10 (order independence): permuting the tag list never changes whether
    [validateDataItem] accepts. *)
Theorem validateDataItem_Permutation_verdict (JSON_parse : jsstring -> option json)
    (signatureType : Z) (tags tags' : list Tag) (rawData : bytes) (totalSize : Z)
    (target anchor : option jsstring) :
  Permutation tags tags' ->
  is_valid (validateDataItem JSON_parse signatureType tags' rawData totalSize target anchor) =
  is_valid (validateDataItem JSON_parse signatureType tags rawData totalSize target anchor).
Proof.
  intros Hp. unfold validateDataItem.
  destruct (validate_tags signatureType tags totalSize target anchor) as [e | tv] eqn:E.
  - destruct (validate_tags signatureType tags' totalSize target anchor) as [e' | tv'] eqn:E';
      [reflexivity |].
    pose proof E' as E''. apply validate_tags_inr in E''.
    destruct E'' as (_ & _ & _ & _ & _ & Hnd' & _).
    rewrite (validate_tags_Permutation _ _ _ _ _ _ (Permutation_sym Hp) Hnd') in E.
    congruence.
  - pose proof E as E''. apply validate_tags_inr in E''.
    destruct E'' as (_ & _ & _ & _ & _ & Hnd & _).
    rewrite (validate_tags_Permutation _ _ _ _ _ _ Hp Hnd), E. reflexivity.
Qed.

Lemma span_digits_app (d r : jsstring) :
  forallb is_digit d = true ->
  match r with [] => True | c :: _ => is_digit c = false end ->
  span_digits (d ++ r) = (d, r).
Proof.
  intros Hd Hr. induction d as [| c d IH]; simpl.
  - destruct r as [| c r]; [reflexivity |]. simpl. rewrite Hr. reflexivity.
  - simpl in Hd. apply andb_prop in Hd. destruct Hd as [Hc Hd].
    rewrite Hc, (IH Hd). reflexivity.
Qed.

Lemma parseSemver_digits (a b c : jsstring) :
  a <> [] -> b <> [] -> c <> [] ->
  forallb is_digit a = true -> forallb is_digit b = true -> forallb is_digit c = true ->
  parseSemver (a ++ 46 :: b ++ 46 :: c) = Some (parseInt10 a, parseInt10 b, parseInt10 c).
Proof.
  intros Ha Hb Hc Da Db Dc. unfold parseSemver.
  rewrite (span_digits_app a _ Da) by reflexivity.
  destruct a as [| x a]; [congruence |].
  rewrite (span_digits_app b _ Db) by reflexivity.
  destruct b as [| y b]; [congruence |].
  rewrite <- (app_nil_r c), (span_digits_app c [] Dc I).
  rewrite app_nil_r. destruct c as [| z c]; [congruence |]. reflexivity.
Qed.

Lemma semverGte_false (x y z p q r : Z) :
  semverGte (x, y, z) (p, q, r) = false <-> semver_lt (x, y, z) (p, q, r).
Proof.
  unfold semverGte, semver_lt. rewrite !Z.gtb_ltb.
  destruct (p <? x) eqn:E1; [| destruct (x <? p) eqn:E2];
    [| | destruct (q <? y) eqn:E3; [| destruct (y <? q) eqn:E4];
         [| | destruct (r <? z) eqn:E5; [| destruct (z <? r) eqn:E6]]];
    rewrite ?Z.ltb_lt, ?Z.ltb_ge in *; split; intros H; try discriminate; try reflexivity; lia.
Qed.

Lemma tags_value_unique (tags : list Tag) (k v v' : jsstring) :
  NoDup (map tag_name tags) -> In (mkTag k v) tags -> In (mkTag k v') tags -> v = v'.
Proof.
  induction tags as [| t tags IH]; simpl; [contradiction |].
  intros Hnd H1 H2. inversion Hnd as [| ? ? Hnotin Hnd']. subst.
  destruct H1 as [H1 | H1], H2 as [H2 | H2]; try subst t.
  - injection H2 as ->. reflexivity.
  - exfalso. apply Hnotin. apply in_map_iff. exists (mkTag k v'). auto.
  - exfalso. apply Hnotin. apply in_map_iff. exists (mkTag k v). auto.
  - auto.
Qed.

(** C9 (minimum SDK version, amended): once the tag checks that precede it
    have passed, and the [SDK-Version] tag is [MAJOR.MINOR.PATCH] in decimal
    digits, [validateDataItem] rejects with the below-minimum error exactly
    when the parsed triple is lexicographically below [(0, 2, 0)]. *)
Theorem validateDataItem_sdk_minimum (JSON_parse : jsstring -> option json)
    (signatureType : Z) (tags : list Tag) (rawData : bytes) (totalSize : Z)
    (target anchor : option jsstring) (tv : TagValues) (a b c : jsstring) :
  validate_tags signatureType tags totalSize target anchor = inr tv ->
  In (mkTag (lit "SDK-Version") (a ++ 46 :: b ++ 46 :: c)) tags ->
  a <> [] -> b <> [] -> c <> [] ->
  forallb is_digit a = true -> forallb is_digit b = true -> forallb is_digit c = true ->
  ((exists v, validateDataItem JSON_parse signatureType tags rawData totalSize target anchor
              = Invalid (ESdkVersionBelowMinimum v)) <->
   semver_lt (parseInt10 a, parseInt10 b, parseInt10 c) MIN_SDK_VERSION).
Proof.
  intros Ev Hin Ha Hb Hc Da Db Dc.
  pose proof Ev as Hv. apply validate_tags_inr in Hv.
  destruct Hv as (_ & _ & _ & _ & _ & Hnd & _ & _ & _ & _ & _ & Hsdk & _).
  pose proof (tags_value_unique _ _ _ _ Hnd Hsdk Hin) as Htv.
  unfold validateDataItem. rewrite Ev, Htv, (parseSemver_digits a b c Ha Hb Hc Da Db Dc).
  unfold MIN_SDK_VERSION. rewrite <- semverGte_false.
  destruct (semverGte (parseInt10 a, parseInt10 b, parseInt10 c) (0, 2, 0)); simpl.
  - split; [| discriminate]. intros [v Hv]. crunch Hv.
  - split; [reflexivity |]. intros _. eexists. reflexivity.
Qed.

Lemma land_low_mod (x : Z) (k : nat) :
  Z.land x (Z.ones (Z.of_nat k)) = x mod Z.of_nat (2 ^ k).
Proof. rewrite Z.land_ones by lia. rewrite Nat2Z.inj_pow. reflexivity. Qed.

(** Adds the division equation and the bounds of each [x mod m] of the goal. *)
Ltac mod_facts :=
  repeat match goal with
         | |- context [?x mod ?m] =>
             lazymatch goal with
             | _ : x = m * (x / m) + x mod m |- _ => fail
             | _ => pose proof (Z.div_mod x m ltac:(lia));
                    pose proof (Z.mod_pos_bound x m ltac:(lia))
             end
         end.

Lemma utf8_lead_spec (b : Z) (n : nat) (cp lo up : Z) :
  utf8_lead b = Some (n, cp, lo, up) ->
  n <> O /\ 0x80 <= lo /\ up <= 0xBF /\ (cp <> 0 \/ 0x90 <= lo).
Proof.
  unfold utf8_lead.
  change 0x1F with (Z.ones (Z.of_nat 5)). change 0xF with (Z.ones (Z.of_nat 4)).
  change 0x7 with (Z.ones (Z.of_nat 3)). rewrite !land_low_mod. cbn [Nat.pow Nat.mul Nat.add].
  destruct ((0xC2 <=? b) && (b <=? 0xDF)) eqn:E1;
    [| destruct ((0xE0 <=? b) && (b <=? 0xEF)) eqn:E2;
       [| destruct ((0xF0 <=? b) && (b <=? 0xF4)) eqn:E3]];
    intros H; try discriminate; injection H as <- <- <- <-;
    repeat match goal with
           | E : (_ && _) = true |- _ => apply andb_prop in E; destruct E as [? ?]
           end;
    rewrite ?Z.leb_le in *.
  - split; [discriminate |]. mod_facts. lia.
  - split; [discriminate |].
    destruct (b =? 0xE0) eqn:Ea; destruct (b =? 0xED) eqn:Eb;
      rewrite ?Z.eqb_eq, ?Z.eqb_neq in *; mod_facts; lia.
  - split; [discriminate |].
    destruct (b =? 0xF0) eqn:Ea; destruct (b =? 0xF4) eqn:Eb;
      rewrite ?Z.eqb_eq, ?Z.eqb_neq in *; mod_facts; lia.
Qed.

Lemma utf8_cont_length (n : nat) (cp lo up : Z) (l : bytes) :
  (length (snd (utf8_cont n cp lo up l)) <= length l)%nat.
Proof.
  revert cp lo up l. induction n as [| n IH]; intros cp lo up l; simpl; [lia |].
  destruct l as [| c r]; simpl; [lia |].
  destruct ((lo <=? c) && (c <=? up)); [| simpl; lia].
  etransitivity; [apply IH | simpl; lia].
Qed.

Lemma shiftl6_lor_nonzero (cp x : Z) : cp <> 0 -> Z.lor (Z.shiftl cp 6) x <> 0.
Proof.
  intros Hcp H. apply Z.lor_eq_0_iff in H. destruct H as [H _].
  rewrite Z.shiftl_mul_pow2 in H by lia. lia.
Qed.

Lemma utf8_cont_nonzero (n : nat) (cp lo up : Z) (l rest : bytes) (c : Z) :
  utf8_cont n cp lo up l = (Some c, rest) -> cp <> 0 -> c <> 0.
Proof.
  revert cp lo up l. induction n as [| n IH]; intros cp lo up l; simpl.
  - intros H Hcp. injection H as <- _. exact Hcp.
  - destruct l as [| b r]; [discriminate |].
    destruct ((lo <=? b) && (b <=? up)); [| discriminate].
    intros H Hcp. apply (IH _ _ _ _ H). apply shiftl6_lor_nonzero. exact Hcp.
Qed.

Lemma utf8_cont_first_nonzero (n : nat) (cp lo up : Z) (l rest : bytes) (c : Z) :
  utf8_cont n cp lo up l = (Some c, rest) ->
  n <> O -> 0x80 <= lo -> up <= 0xBF -> (cp <> 0 \/ 0x90 <= lo) -> c <> 0.
Proof.
  destruct n as [| n]; [intros _ H; exfalso; apply H; reflexivity |].
  cbn [utf8_cont]. destruct l as [| b r]; [discriminate |].
  destruct ((lo <=? b) && (b <=? up)) eqn:E; [| discriminate].
  intros H _ Hlo Hup Hcp. apply (utf8_cont_nonzero _ _ _ _ _ _ _ H).
  apply andb_prop in E. rewrite !Z.leb_le in E.
  intros H0. apply Z.lor_eq_0_iff in H0. destruct H0 as [H1 H2].
  rewrite Z.shiftl_mul_pow2 in H1 by lia.
  change 0x3F with (Z.ones (Z.of_nat 6)) in H2. rewrite land_low_mod in H2.
  cbn [Nat.pow Nat.mul Nat.add] in H2. simpl Z.of_nat in H2.
  revert H2. mod_facts. lia.
Qed.

Lemma utf8_go_zero (fuel : nat) (l : bytes) :
  (length l <= fuel)%nat ->
  Forall (fun x => x = 0) (utf8_go fuel l) -> Forall (fun x => x = 0) l.
Proof.
  revert l. induction fuel as [| f IH]; intros l Hlen Hz.
  - destruct l; [constructor | simpl in Hlen; lia].
  - destruct l as [| b r]; [constructor |]. simpl in Hlen, Hz.
    destruct (b <=? 0x7F).
    + inversion Hz as [| ? ? Hb Hr]. subst. constructor; [reflexivity |]. apply IH; [lia | exact Hr].
    + destruct (utf8_lead b) as [[[[n cp] lo] up] |] eqn:El.
      * destruct (utf8_cont n cp lo up r) as [res rest] eqn:Ec.
        apply utf8_lead_spec in El. destruct El as (Hn & Hlo & Hup & Hcp).
        destruct res as [c |]; inversion Hz as [| ? ? Hc _]; [| discriminate].
        exfalso. exact (utf8_cont_first_nonzero _ _ _ _ _ _ _ Ec Hn Hlo Hup Hcp Hc).
      * inversion Hz. discriminate.
Qed.

Lemma utf8_decode_zero (l : bytes) :
  Forall (fun x => x = 0) (utf8_decode l) -> Forall (fun x => x = 0) l.
Proof. apply utf8_go_zero. lia. Qed.

Lemma dropLeadingNul_nil (s : jsstring) :
  dropLeadingNul s = [] -> Forall (fun x => x = 0) s.
Proof.
  induction s as [| x r IH]; [constructor |].
  destruct x as [| q | q]; simpl; [| discriminate | discriminate].
  intros H. constructor; [reflexivity | exact (IH H)].
Qed.

Lemma anchorToString_Some (a : bytes) :
  Exists (fun x => x <> 0) a -> exists s, anchorToString a = Some s.
Proof.
  intros Hex. unfold anchorToString.
  destruct (trimTrailingNul (utf8_decode a)) as [| c r] eqn:E; [| eexists; reflexivity].
  exfalso. unfold trimTrailingNul in E.
  apply (f_equal (@rev Z)) in E. rewrite rev_involutive in E. simpl in E.
  apply dropLeadingNul_nil, Forall_rev in E. rewrite rev_involutive in E.
  apply utf8_decode_zero in E.
  apply Exists_Forall_neg in Hex; [contradiction | intros x; lia].
Qed.

Lemma flag_is_one_true (f : option Z) : flag_is_one f = true <-> f = Some 1.
Proof. destruct f as [[| [q | q |] | q] |]; simpl; split; intros; congruence. Qed.

(** An all-NUL anchor: its UTF-8 text is NUL characters, which the trim removes. *)
Lemma utf8_go_ascii (fuel : nat) (l : bytes) :
  (length l <= fuel)%nat -> Forall (fun x => 0 <= x < 128) l -> utf8_go fuel l = l.
Proof.
  revert l. induction fuel as [| f IH]; intros l Hl Ha.
  - destruct l; [reflexivity | simpl in Hl; lia].
  - destruct l as [| x r]; [reflexivity |]. inversion Ha as [| ? ? Hx Hr]; subst.
    cbn [utf8_go]. destruct (x <=? 0x7F) eqn:E; [| apply Z.leb_gt in E; lia].
    rewrite IH; [reflexivity | simpl in Hl; lia | exact Hr].
Qed.

Lemma dropLeadingNul_zeros (s : jsstring) :
  Forall (fun x => x = 0) s -> dropLeadingNul s = [].
Proof. induction 1 as [| x r Hx _ IH]; [reflexivity |]. subst x. exact IH. Qed.

Lemma trimTrailingNul_zeros (a : bytes) :
  Forall (fun x => x = 0) a -> trimTrailingNul (utf8_decode a) = [].
Proof.
  intros H. unfold utf8_decode. rewrite utf8_go_ascii; [| lia |].
  - unfold trimTrailingNul. rewrite dropLeadingNul_zeros; [reflexivity |].
    apply Forall_rev. exact H.
  - eapply Forall_impl; [| exact H]. intros x ->. lia.
Qed.

Lemma buildTagMap_inr (m : TagMap) (tags : list Tag) (e : ValidationError) :
  buildTagMap m tags = inr e -> exists n, e = EDuplicateTag n.
Proof.
  revert m. induction tags as [| t r IH]; intros m H; simpl in H; [discriminate |].
  destruct (map_has m (tag_name t)); [injection H as <-; eexists; reflexivity | exact (IH _ H)].
Qed.

Lemma validate_tags_no_anchor (signatureType : Z) (tags : list Tag) (totalSize : Z)
    (target : option jsstring) :
  validate_tags signatureType tags totalSize target None <> inl EAnchorNotAllowed.
Proof.
  intros H. unfold validate_tags in H. crunch H.
  apply buildTagMap_inr in E3. destruct E3 as [n ->]. discriminate H.
Qed.

Lemma validateDataItem_no_anchor (JSON_parse : jsstring -> option json) (signatureType : Z)
    (tags : list Tag) (rawData : bytes) (totalSize : Z) (target : option jsstring) :
  validateDataItem JSON_parse signatureType tags rawData totalSize target None
  <> Invalid EAnchorNotAllowed.
Proof.
  unfold validateDataItem.
  destruct (validate_tags signatureType tags totalSize target None) as [e | tv] eqn:Ev.
  - intros H. injection H as ->. exact (validate_tags_no_anchor _ _ _ _ Ev).
  - repeat match goal with
           | |- context [match ?x with _ => _ end] => destruct x
           end; discriminate.
Qed.

(** C5 (anchor rejection, amended): for a blob that decodes, with a target
    flag other than 1 and an anchor-present flag of 1, an anchor whose 32
    bytes are not all NUL is rejected by decoding then validating with the
    anchor-not-allowed error when the blob fits the size limit; an anchor of
    NUL bytes trims to the empty string, is reported as absent, and never
    gets the anchor-not-allowed error. *)
Theorem decodeThenValidate_anchor_rejected (JSON_parse : jsstring -> option json)
    (sha256 : bytes -> bytes) (fuel : nat) (buf : bytes) (p : ParsedDataItem) :
  parseDataItem sha256 fuel buf = Ok p ->
  byte_at buf 1026 <> Some 1 ->
  byte_at buf 1027 = Some 1 ->
  (len buf <= MAX_DATA_ITEM_SIZE ->
   Exists (fun x => x <> 0) (subarray buf 1028 1060) ->
   decodeThenValidate JSON_parse sha256 fuel buf = PValidated (Invalid EAnchorNotAllowed)) /\
  (Forall (fun x => x = 0) (subarray buf 1028 1060) ->
   pd_anchorBytes p = Some (subarray buf 1028 1060) /\
   trimTrailingNul (utf8_decode (subarray buf 1028 1060)) = [] /\
   pd_anchor p = None /\
   decodeThenValidate JSON_parse sha256 fuel buf <> PValidated (Invalid EAnchorNotAllowed)).
Proof.
  intros H Ht Ha.
  pose proof (parseDataItem_Ok _ _ _ _ H) as Hp. cbv zeta in Hp.
  destruct Hp as (_ & _ & Hsig & _ & _ & _ & Htb & Htarget & Hab & Hanchor & _).
  assert (Hf : flag_is_one (byte_at buf 1026) = false).
  { destruct (flag_is_one (byte_at buf 1026)) eqn:E; [| reflexivity].
    apply flag_is_one_true in E. contradiction. }
  unfold anchorFlagOffset in Hab. rewrite Hf in Htb, Hab. rewrite Ha in Hab.
  cbn in Hab. rewrite Htb in Htarget. rewrite Hab in Hanchor.
  split.
  - intros Hsize Hex. destruct (anchorToString_Some _ Hex) as [s Hs].
    rewrite Hs in Hanchor.
    unfold decodeThenValidate. rewrite H. unfold validateDataItem, validate_tags.
    rewrite Hsig, Htarget, Hanchor.
    destruct (len buf >? MAX_DATA_ITEM_SIZE) eqn:E; [| reflexivity].
    rewrite Z.gtb_ltb, Z.ltb_lt in E. lia.
  - intros Hz. pose proof (trimTrailingNul_zeros _ Hz) as Htrim.
    assert (Hn : pd_anchor p = None)
      by (rewrite Hanchor; unfold anchorToString; rewrite Htrim; reflexivity).
    split; [exact Hab |]. split; [exact Htrim |]. split; [exact Hn |].
    unfold decodeThenValidate. rewrite H, Hn. intros Hv. injection Hv as Hv.
    exact (validateDataItem_no_anchor _ _ _ _ _ _ Hv).
Qed.

Lemma suffix_app (a r : bytes) : suffix (a ++ r) (len a) = r.
Proof.
  unfold suffix, len. destruct (Z.of_nat (length a) <? 0) eqn:E; [apply Z.ltb_lt in E; lia |].
  rewrite Nat2Z.id, skipn_app, skipn_all, Nat.sub_diag. reflexivity.
Qed.

Lemma subarray_app (a b c : bytes) : subarray (a ++ b ++ c) (len a) (len a + len b) = b.
Proof.
  unfold subarray, rel_index, len. rewrite !length_app.
  destruct (Z.of_nat (length a) <? 0) eqn:E1; [apply Z.ltb_lt in E1; lia |].
  destruct (Z.of_nat (length a) + Z.of_nat (length b) <? 0) eqn:E2; [apply Z.ltb_lt in E2; lia |].
  rewrite !Z.min_l by lia.
  replace (Z.to_nat (Z.of_nat (length a) + Z.of_nat (length b) - Z.of_nat (length a)))
    with (length b) by lia.
  rewrite Nat2Z.id, skipn_app, skipn_all, Nat.sub_diag. cbn [app skipn].
  rewrite firstn_app, firstn_all, Nat.sub_diag. cbn [firstn]. apply app_nil_r.
Qed.

Lemma toInt32_small (x : Z) : 0 <= x < 2 ^ 31 -> toInt32 x = x.
Proof.
  intros Hx. unfold toInt32. rewrite Z.mod_small by lia.
  destruct (x <? 2 ^ 31) eqn:E; [reflexivity | apply Z.ltb_ge in E; lia].
Qed.

Lemma toUint32_small (x : Z) : 0 <= x < 2 ^ 32 -> toUint32 x = x.
Proof. intros Hx. unfold toUint32. apply Z.mod_small. lia. Qed.

(** A one-byte zig-zag varint [2 * n] reads as [n] in one byte. *)
Lemma readZigzagVarint_one (buf : bytes) (offset n : Z) (r : bytes) :
  0 <= n < 64 -> suffix buf offset = 2 * n :: r ->
  readZigzagVarint buf offset = (n, 1).
Proof.
  intros Hn Hs. unfold readZigzagVarint. rewrite Hs. cbn [readZigzag_loop].
  assert (Hlow : Z.land (2 * n) 0x7f = 2 * n).
  { change 0x7f with (Z.ones (Z.of_nat 7)). rewrite land_low_mod. apply Z.mod_small.
    change (Z.of_nat (2 ^ 7)) with 128. lia. }
  assert (Hhigh : Z.land (2 * n) 0x80 = 0).
  { rewrite <- Hlow, <- Z.land_assoc. change (Z.land 0x7f 0x80) with 0. apply Z.land_0_r. }
  rewrite Hlow, Hhigh. cbn [Z.eqb].
  unfold js_or, js_shl.
  rewrite (toUint32_small 0), (toUint32_small (2 * n)) by lia.
  change (Z.land 0 31) with 0. rewrite Z.shiftl_0_r, (toInt32_small (2 * n)) by lia.
  rewrite (toUint32_small (2 * n)) by lia. rewrite Z.lor_0_l, (toInt32_small (2 * n)) by lia.
  unfold js_xor, js_ushr, js_and.
  rewrite (toUint32_small (2 * n)) by lia.
  change (Z.land 1 31) with 1. rewrite Z.shiftr_div_pow2 by lia.
  rewrite (toUint32_small 1) by lia.
  change (Z.land (2 * n) 1) with (Z.land (2 * n) (Z.ones (Z.of_nat 1))).
    rewrite land_low_mod. change (Z.of_nat (2 ^ 1)) with 2.
  replace (2 * n / 2 ^ 1) with n by (rewrite Z.pow_1_r, Z.mul_comm, Z.div_mul; lia).
  replace (2 * n mod 2) with 0 by (rewrite Z.mul_comm, Z.mod_mul; lia).
    rewrite (toInt32_small 0) by lia. cbn [Z.opp].
  rewrite (toUint32_small n), (toUint32_small 0), Z.lxor_0_r, toInt32_small by lia.
  f_equal.
Qed.

(** Evaluates [len] of the literal lists of the goal. *)
Ltac simpl_lens :=
  repeat match goal with
         | |- context [len (?x :: ?r)] =>
             let n := eval cbv [len length Z.of_nat Pos.of_succ_nat Pos.succ] in (len (x :: r)) in
             change (len (x :: r)) with n
         end.

Lemma len_app {A} (a b : list A) : len (a ++ b) = len a + len b.
Proof. unfold len. rewrite length_app. lia. Qed.

Lemma len_nonneg {A} (a : list A) : 0 <= len a.
Proof. unfold len. lia. Qed.

Lemma in_range_list (lo : Z) (k : nat) (b : Z) :
  lo <= b < lo + Z.of_nat k -> In b (map (fun i => lo + Z.of_nat i) (seq 0 k)).
Proof.
  intros H. apply in_map_iff. exists (Z.to_nat (b - lo)). split; [lia |]. apply in_seq. lia.
Qed.

Lemma lor_disjoint (r b s : Z) :
  0 <= s -> 0 <= r < 2 ^ s -> 0 <= b -> Z.lor r (b * 2 ^ s) = r + b * 2 ^ s.
Proof.
  intros Hs Hr Hb. rewrite <- Z.shiftl_mul_pow2 by lia.
  assert (H0 : Z.land r (Z.shiftl b s) = 0).
  { apply Z.bits_inj'. intros i Hi. rewrite Z.land_spec, Z.bits_0.
    destruct (Z.lt_ge_cases i s) as [Hlt | Hge].
    - rewrite Z.shiftl_spec_low by lia. apply andb_false_r.
    - rewrite <- (Z.mod_small r (2 ^ s)) by lia. rewrite Z.mod_pow2_bits_high by lia. reflexivity. }
  rewrite <- Z.lxor_lor by exact H0. symmetry. apply Z.add_nocarry_lxor. exact H0.
Qed.

Lemma js_or_shl_step (r b s : Z) :
  0 <= s < 32 -> 0 <= r < 2 ^ s -> 0 <= b -> r + b * 2 ^ s < 2 ^ 31 ->
  js_or r (js_shl b s) = r + b * 2 ^ s.
Proof.
  intros Hs Hr Hb Hlt.
  assert (Hp : 0 < 2 ^ s) by (apply Z.pow_pos_nonneg; lia).
  assert (Hbs : 0 <= b * 2 ^ s) by nia.
  assert (Hb32 : b < 2 ^ 32) by (assert (b <= b * 2 ^ s) by nia; lia).
  unfold js_or, js_shl.
  rewrite (toUint32_small b) by lia.
  assert (Hl : Z.land s 31 = s).
  { change 31 with (Z.ones (Z.of_nat 5)). rewrite land_low_mod. apply Z.mod_small.
    change (Z.of_nat (2 ^ 5)) with 32. lia. }
  rewrite Hl, Z.shiftl_mul_pow2 by lia.
  rewrite (toInt32_small (b * 2 ^ s)) by lia.
  rewrite (toUint32_small r), (toUint32_small (b * 2 ^ s)) by lia.
  rewrite lor_disjoint by lia. apply toInt32_small. lia.
Qed.

Lemma land_7f_80 (b : Z) :
  0 <= b < 256 -> Z.land b 0x7f = b mod 128 /\ Z.land b 0x80 = (if b <? 128 then 0 else 128).
Proof.
  intros Hb.
  assert (Hall : forallb (fun b => (Z.land b 0x7f =? b mod 128) &&
                                   (Z.land b 0x80 =? (if b <? 128 then 0 else 128)))
                   (map (fun i => 0 + Z.of_nat i) (seq 0 256)) = true)
    by (vm_compute; reflexivity).
  rewrite forallb_forall in Hall. specialize (Hall b (in_range_list 0 256 b ltac:(lia))).
  apply andb_prop in Hall. rewrite !Z.eqb_eq in Hall. exact Hall.
Qed.

Lemma readZigzag_loop_varint (k : nat) (m r s c : Z) (rest : bytes) :
  0 <= m < 128 ^ Z.of_nat (S k) -> 0 <= s < 32 -> 0 <= r < 2 ^ s ->
  r + m * 2 ^ s < 2 ^ 31 ->
  readZigzag_loop (varint_bytes k m ++ rest) r s c = (r + m * 2 ^ s, c + len (varint_bytes k m)).
Proof.
  revert m r s c. induction k as [| k IH]; intros m r s c Hm Hs Hr Hlt.
  - cbn [varint_bytes app readZigzag_loop].
    change (128 ^ Z.of_nat 1) with 128 in Hm.
    destruct (land_7f_80 m ltac:(lia)) as [H1 H2].
    rewrite H1, H2, Z.mod_small by lia.
    destruct (m <? 128) eqn:E; [| apply Z.ltb_ge in E; lia]. cbn [Z.eqb].
    rewrite js_or_shl_step by lia. reflexivity.
  - cbn [varint_bytes].
    destruct (m <? 128) eqn:E.
    + apply Z.ltb_lt in E. cbn [app readZigzag_loop].
      destruct (land_7f_80 m ltac:(lia)) as [H1 H2].
      rewrite H1, H2, Z.mod_small by lia. rewrite (proj2 (Z.ltb_lt m 128) E). cbn [Z.eqb].
      rewrite js_or_shl_step by lia. reflexivity.
    + apply Z.ltb_ge in E. cbn [app readZigzag_loop].
      pose proof (Z.mod_pos_bound m 128 ltac:(lia)) as Hmod.
      pose proof (Z.div_mod m 128 ltac:(lia)) as Hdm.
      destruct (land_7f_80 (m mod 128 + 128) ltac:(lia)) as [H1 H2].
      rewrite H1, H2.
      replace ((m mod 128 + 128) mod 128) with (m mod 128)
        by (rewrite Z.add_mod, Z.mod_same, Z.add_0_r, !Z.mod_mod by lia; reflexivity).
      destruct (m mod 128 + 128 <? 128) eqn:E2; [apply Z.ltb_lt in E2; lia |]. cbn [Z.eqb].
      assert (Hp : 0 < 2 ^ s) by (apply Z.pow_pos_nonneg; lia).
      assert (Hs7 : 2 ^ (s + 7) = 2 ^ s * 128) by (rewrite Z.pow_add_r by lia; reflexivity).
      assert (Hsm : s + 7 < 31).
      { destruct (Z.lt_ge_cases (s + 7) 31) as [? | Hge]; [lia |].
        assert (2 ^ 31 <= 2 ^ (s + 7)) by (apply Z.pow_le_mono_r; lia). nia. }
      rewrite js_or_shl_step by nia.
      rewrite IH.
      * unfold len. cbn [length]. rewrite Nat2Z.inj_succ. f_equal; [| lia].
        rewrite Hs7. nia.
      * split; [apply Z.div_pos; lia |]. apply Z.div_lt_upper_bound; [lia |].
        rewrite Nat2Z.inj_succ, Z.pow_succ_r in Hm by lia. lia.
      * lia.
      * rewrite Hs7. nia.
      * rewrite Hs7. nia.
Qed.

Lemma zigzag_even (n : Z) :
  0 <= n -> 2 * n < 2 ^ 31 -> js_xor (js_ushr (2 * n) 1) (- js_and (2 * n) 1) = n.
Proof.
  intros Hn Hlt. unfold js_xor, js_ushr, js_and.
  rewrite (toUint32_small (2 * n)) by lia.
  change (Z.land 1 31) with 1. rewrite Z.shiftr_div_pow2 by lia.
  rewrite (toUint32_small 1) by lia.
  change (Z.land (2 * n) 1) with (Z.land (2 * n) (Z.ones (Z.of_nat 1))).
  rewrite land_low_mod. change (Z.of_nat (2 ^ 1)) with 2.
  replace (2 * n / 2 ^ 1) with n by (rewrite Z.pow_1_r, Z.mul_comm, Z.div_mul; lia).
  replace (2 * n mod 2) with 0 by (rewrite Z.mul_comm, Z.mod_mul; lia).
  rewrite (toInt32_small 0) by lia. cbn [Z.opp].
  rewrite (toUint32_small n), (toUint32_small 0), Z.lxor_0_r, toInt32_small by lia.
  reflexivity.
Qed.

Lemma readZigzagVarint_long (buf rest : bytes) (offset n : Z) :
  0 <= n < 2 ^ 30 -> suffix buf offset = avro_long n ++ rest ->
  readZigzagVarint buf offset = (n, len (avro_long n)).
Proof.
  intros Hn Hs. unfold readZigzagVarint. rewrite Hs. unfold avro_long.
  rewrite readZigzag_loop_varint.
  - change (2 ^ 0) with 1. rewrite Z.mul_1_r, !Z.add_0_l. rewrite zigzag_even by lia. reflexivity.
  - change (128 ^ Z.of_nat 5) with 34359738368. lia.
  - lia.
  - change (2 ^ 0) with 1. lia.
  - change (2 ^ 0) with 1. lia.
Qed.



Lemma decodeAvroTags_block_encoded (ts : list (bytes * bytes)) (pre post : bytes) (acc : list Tag) :
  Forall tag_fits ts ->
  decodeAvroTags_block (length ts) (pre ++ flat_map avro_tag ts ++ post) (len pre) acc
  = (len pre + len (flat_map avro_tag ts), acc ++ map decoded_tag ts).
Proof.
  revert pre acc. induction ts as [| [nb vb] ts IH]; intros pre acc Hf.
  - cbn. rewrite app_nil_r, Z.add_0_r. reflexivity.
  - inversion Hf as [| ? ? [Hn Hv] Hf']; subst. cbn [fst snd] in Hn, Hv.
    pose proof (len_nonneg nb). pose proof (len_nonneg vb).
    set (Ln := avro_long (len nb)). set (Lv := avro_long (len vb)).
    set (R := flat_map avro_tag ts ++ post).
    assert (EB : pre ++ flat_map avro_tag ((nb, vb) :: ts) ++ post = pre ++ Ln ++ nb ++ Lv ++ vb ++ R)
      by (cbn [flat_map avro_tag]; unfold R; rewrite <- !app_assoc; reflexivity).
    rewrite EB.
    assert (H1 : readZigzagVarint (pre ++ Ln ++ nb ++ Lv ++ vb ++ R) (len pre) = (len nb, len Ln))
      by (apply (readZigzagVarint_long _ (nb ++ Lv ++ vb ++ R)); [lia | apply suffix_app]).
    assert (H2 : subarray (pre ++ Ln ++ nb ++ Lv ++ vb ++ R) (len pre + len Ln)
                   (len pre + len Ln + len nb) = nb).
    { replace (pre ++ Ln ++ nb ++ Lv ++ vb ++ R) with ((pre ++ Ln) ++ nb ++ Lv ++ vb ++ R)
        by (rewrite <- app_assoc; reflexivity).
      rewrite <- len_app. apply subarray_app. }
    assert (H3 : readZigzagVarint (pre ++ Ln ++ nb ++ Lv ++ vb ++ R) (len pre + len Ln + len nb)
                 = (len vb, len Lv)).
    { apply (readZigzagVarint_long _ (vb ++ R)); [lia |].
      replace (pre ++ Ln ++ nb ++ Lv ++ vb ++ R) with ((pre ++ Ln ++ nb) ++ Lv ++ vb ++ R)
        by (rewrite <- !app_assoc; reflexivity).
      replace (len pre + len Ln + len nb) with (len (pre ++ Ln ++ nb)) by (rewrite !len_app; ring).
      apply suffix_app. }
    assert (H4 : subarray (pre ++ Ln ++ nb ++ Lv ++ vb ++ R) (len pre + len Ln + len nb + len Lv)
                   (len pre + len Ln + len nb + len Lv + len vb) = vb).
    { replace (pre ++ Ln ++ nb ++ Lv ++ vb ++ R) with ((pre ++ Ln ++ nb ++ Lv) ++ vb ++ R)
        by (rewrite <- !app_assoc; reflexivity).
      replace (len pre + len Ln + len nb + len Lv) with (len (pre ++ Ln ++ nb ++ Lv))
        by (rewrite !len_app; ring).
      apply subarray_app. }
    cbn [length decodeAvroTags_block].
    rewrite H1. cbv beta iota zeta. rewrite H2, H3. cbv beta iota zeta. rewrite H4.
    specialize (IH (pre ++ Ln ++ nb ++ Lv ++ vb) (acc ++ [mkTag (utf8_decode nb) (utf8_decode vb)]) Hf').
    replace (pre ++ Ln ++ nb ++ Lv ++ vb ++ R) with ((pre ++ Ln ++ nb ++ Lv ++ vb) ++ flat_map avro_tag ts ++ post)
      by (unfold R; rewrite <- !app_assoc; reflexivity).
    replace (len pre + len Ln + len nb + len Lv + len vb) with (len (pre ++ Ln ++ nb ++ Lv ++ vb))
      by (rewrite !len_app; ring).
    rewrite IH. cbn [flat_map avro_tag map decoded_tag]. rewrite <- app_assoc. cbn [app].
    f_equal. rewrite !len_app. fold Ln Lv. ring.
Qed.

(** C8 (tag text decoding, amended): tag decoding does not check UTF-8.  For
    every list of tags whose names and values are arbitrary bytes (of length
    below 2^30, what the 32-bit varint reader represents), the Avro encoding
    decodes to the tags whose name and value are those bytes decoded with
    U+FFFD replacement; it never fails. *)
Theorem decodeAvroTags_encoded (fuel : nat) (ts : list (bytes * bytes)) :
  (2 <= fuel)%nat -> len ts < 2 ^ 30 -> Forall tag_fits ts ->
  decodeAvroTags fuel (avro_encode_tags ts) = Some (map decoded_tag ts).
Proof.
  intros Hfuel Hts Hf. unfold decodeAvroTags, avro_encode_tags.
  pose proof (len_nonneg ts) as Hts0.
  set (L := avro_long (len ts)). set (T := flat_map avro_tag ts).
  assert (HL : readZigzagVarint (L ++ T ++ [0]) 0 = (len ts, len L))
    by (apply (readZigzagVarint_long _ (T ++ [0])); [lia | reflexivity]).
  assert (HB : len (L ++ T ++ [0]) = len L + len T + 1)
    by (rewrite !len_app; simpl_lens; ring).
  pose proof (len_nonneg L). pose proof (len_nonneg T).
  destruct fuel as [| [| f]]; [lia | lia |].
  cbn [decodeAvroTags_loop].
  destruct (0 <? len (L ++ T ++ [0])) eqn:E0; [| apply Z.ltb_ge in E0; lia].
  rewrite HL. cbv beta iota zeta.
  destruct (len ts =? 0) eqn:Ez.
  - apply Z.eqb_eq in Ez. destruct ts; [reflexivity | discriminate].
  - destruct (len ts <? 0) eqn:En; [apply Z.ltb_lt in En; lia |].
    replace (Z.to_nat (Z.abs (len ts))) with (length ts) by (unfold len; lia).
    replace (0 + len L) with (len L) by ring.
    unfold T. rewrite (decodeAvroTags_block_encoded ts L [0] [] Hf). fold T.
    cbn [decodeAvroTags_loop].
    destruct (len L + len T <? len (L ++ T ++ [0])) eqn:E1; [| apply Z.ltb_ge in E1; lia].
    assert (Hend : readZigzagVarint (L ++ T ++ [0]) (len L + len T) = (0, 1)).
    { apply (readZigzagVarint_one _ _ _ []); [lia |].
      rewrite app_assoc, <- len_app. apply suffix_app. }
    rewrite Hend. reflexivity.
Qed.

(** Proves [exists p, run = Ok p /\ P p] for a closed run of the decoder by
    evaluating it once. *)
Ltac run_parse :=
  match goal with
  | |- exists p, ?run = Ok p /\ ?P =>
      let Hm := fresh "Hm" in
      assert (Hm : match run with Ok p => P | _ => False end)
        by (vm_compute; repeat split; intros; reflexivity);
      destruct run as [p | |];
        [exists p; split; [reflexivity | exact Hm] | contradiction | contradiction]
  end.

(** The deep hash of a list of blobs is the fold of the spec. *)
Lemma deepHash_blobs (sha384 : bytes -> bytes) (bs : list bytes) :
  deepHash sha384 (CList (map CBlob bs)) = spec_list_hash sha384 bs.
Proof.
  unfold spec_list_hash. cbn [deepHash]. rewrite length_map.
  generalize (sha384 (lit "list" ++ nat_toString (length bs))) as acc.
  induction bs as [| b bs IH]; intros acc; [reflexivity |].
  cbn [map fold_left]. rewrite <- IH. reflexivity.
Qed.

(** C2 (signed message): a target flag byte of 2 is read as no target, so the
    message handed to the RSA-PSS check carries an empty target blob although
    the flag is not 0; the 32 bytes after the flag are read as the anchor flag,
    the tag header and the payload. *)
Theorem verifyDataItem_flag2_empty_target (sha256 : bytes -> bytes) :
  byte_at flag2_item 1026 = Some 2 /\
  exists p, parseDataItem sha256 1 flag2_item = Ok p /\
    pd_targetBytes p = None /\
    forall sha384 rsa_pss_verify,
      isValid sha384 rsa_pss_verify p =
      rsa_pss_verify (base64url (repeat 5 512))
        (deepHash sha384 (CList (map CBlob
           [lit "dataitem"; lit "1"; lit "1"; repeat 5 512; []; []; []; repeat 9 15])))
        (repeat 5 512).
Proof.
  split; [reflexivity |]. run_parse.
Qed.

(** C6 (truncated varints and strings): reading past the end of the tag
    region does not fail.  A varint [0x80] cut after its continuation bit reads
    as 0 and ends the tag array, so a blob with that one-byte tag region and a
    tag count of 0 decodes; a name length of 4 with no bytes left yields an
    empty name and an empty value. *)
Theorem decodeAvroTags_truncated_accepted (sha256 : bytes -> bytes) :
  readZigzagVarint [0x80] 0 = (0, 2) /\
  decodeAvroTags 1 [0x80] = Some [] /\
  decodeAvroTags 2 [0x02; 0x08] = Some [mkTag [] []] /\
  exists p, parseDataItem sha256 1 truncated_varint_item = Ok p /\ pd_tags p = [].
Proof.
  split; [reflexivity |]. split; [reflexivity |]. split; [reflexivity |]. run_parse.
Qed.

(** C7 (flag bytes): a target flag byte of 2 is not rejected; [parseDataItem]
    succeeds and treats the target as absent. *)
Theorem parseDataItem_flag2_accepted (sha256 : bytes -> bytes) :
  byte_at flag2_empty_item 1026 = Some 2 /\
  exists p, parseDataItem sha256 1 flag2_empty_item = Ok p /\
    pd_targetBytes p = None /\ pd_target p = None.
Proof.
  split; [reflexivity |]. run_parse.
Qed.

(* ------------------------------------------------------------------------- *)
(** ** The API key check *)

Lemma cons_eq_inv {A} (x y : A) (l l' : list A) : x :: l = y :: l' -> x = y /\ l = l'.
Proof. intros H. injection H as -> ->. split; reflexivity. Qed.

(** Adds the division equation and the bounds of each [x / m] and [x mod m]
    of the hypotheses, for a numeral [m]. *)
Ltac div_facts :=
  repeat match goal with
         | H : context [?x / ?m] |- _ =>
             lazymatch m with Zpos _ => idtac end;
             lazymatch goal with
             | _ : x = m * (x / m) + x mod m |- _ => fail
             | _ => pose proof (Z.div_mod x m ltac:(lia));
                    pose proof (Z.mod_pos_bound x m ltac:(lia))
             end
         | H : context [?x mod ?m] |- _ =>
             lazymatch m with Zpos _ => idtac end;
             lazymatch goal with
             | _ : x = m * (x / m) + x mod m |- _ => fail
             | _ => pose proof (Z.div_mod x m ltac:(lia));
                    pose proof (Z.mod_pos_bound x m ltac:(lia))
             end
         end.

(** The encodings of two scalar values are equal, or neither is a prefix
    of the other: the lead byte fixes the length. *)
Lemma utf8_encode_cp_app_inj (a b : Z) (r1 r2 : bytes) :
  unicode_scalar a -> unicode_scalar b ->
  utf8_encode_cp a ++ r1 = utf8_encode_cp b ++ r2 -> a = b /\ r1 = r2.
Proof.
  intros [Ha Hsa] [Hb Hsb] H. unfold utf8_encode_cp in H.
  destruct (a <? 0x80) eqn:A1; [|destruct (a <? 0x800) eqn:A2;
    [|destruct ((0xD800 <=? a) && (a <=? 0xDFFF)) eqn:A3;
      [apply andb_prop in A3; rewrite !Z.leb_le in A3; lia|destruct (a <? 0x10000) eqn:A4]]];
  (destruct (b <? 0x80) eqn:B1; [|destruct (b <? 0x800) eqn:B2;
    [|destruct ((0xD800 <=? b) && (b <=? 0xDFFF)) eqn:B3;
      [apply andb_prop in B3; rewrite !Z.leb_le in B3; lia|destruct (b <? 0x10000) eqn:B4]]]);
  rewrite ?Z.ltb_lt, ?Z.ltb_ge in *; cbn [app] in H;
  repeat match goal with H : _ :: _ = _ :: _ |- _ => apply cons_eq_inv in H; destruct H as [? H] end;
  first [exfalso; div_facts; lia | split; [div_facts; lia | assumption]].
Qed.

Lemma utf8_encode_cp_nonempty (c : Z) : utf8_encode_cp c <> [].
Proof.
  unfold utf8_encode_cp.
  destruct (c <? 0x80), (c <? 0x800), ((0xD800 <=? c) && (c <=? 0xDFFF)), (c <? 0x10000);
    discriminate.
Qed.

Lemma utf8_encode_inj (p e : jsstring) :
  Forall unicode_scalar p -> Forall unicode_scalar e ->
  utf8_encode p = utf8_encode e -> p = e.
Proof.
  revert e. induction p as [| a p IH]; intros e Hp He H; destruct e as [| b e].
  - reflexivity.
  - exfalso. simpl in H. destruct (utf8_encode_cp b) eqn:E;
      [apply (utf8_encode_cp_nonempty b E) | discriminate].
  - exfalso. simpl in H. destruct (utf8_encode_cp a) eqn:E;
      [apply (utf8_encode_cp_nonempty a E) | discriminate].
  - inversion Hp; inversion He; subst. simpl in H.
    destruct (utf8_encode_cp_app_inj a b _ _ ltac:(assumption) ltac:(assumption) H) as [-> H'].
    f_equal. apply IH; assumption.
Qed.

(** [checkApiKey] on strings of Unicode scalar values accepts exactly a
    non-empty key equal to the expected one. *)
Theorem checkApiKey_scalar (p e : jsstring) :
  Forall unicode_scalar p -> Forall unicode_scalar e ->
  (checkApiKey (Some p) e = true <-> p <> [] /\ p = e).
Proof.
  intros Hp He. unfold checkApiKey, timingSafeEqual. destruct p as [| c p].
  - split; [discriminate | intros [H _]; congruence].
  - destruct (len (utf8_encode (c :: p)) =? len (utf8_encode e)) eqn:El; cbn [negb].
    + rewrite str_eqb_eq. split.
      * intros H. split; [discriminate | exact (utf8_encode_inj _ _ Hp He H)].
      * intros [_ <-]. reflexivity.
    + split; [discriminate |]. intros [_ <-]. rewrite Z.eqb_refl in El. discriminate.
Qed.

(* ------------------------------------------------------------------------- *)
(** ** The request handler *)

(** A response of [handler] that is a 200, or that comes with a message
    sent to SQS, is reached only through every check: the API key when one
    is configured, a non-empty body, a decode, a passing signature check,
    the schema validation, a configured queue and a successful send.  The
    message is the base64 of the decoded buffer and the body is the item's
    identifier. *)
Theorem handler_accepts (sha256 : bytes -> bytes) (fuel : nat)
    (JSON_parse : jsstring -> option json) (decodeBody : jsstring -> bool -> bytes)
    (isValidOf : ParsedDataItem -> option bool) (sqs_send : jsstring -> jsstring -> bool)
    (env_API_KEY env_SQS_QUEUE_URL : option jsstring)
    (event : Event) (r : Response) (m : option SqsMessage) :
  handler sha256 fuel JSON_parse decodeBody isValidOf sqs_send env_API_KEY env_SQS_QUEUE_URL event
    = Some (r, m) ->
  statusCode r = 200 \/ m <> None ->
  exists body parsed queueUrl,
    let buffer := decodeBody body (ev_isBase64Encoded event) in
    (forall k, config_apiKey env_API_KEY = Some k -> checkApiKey (ev_apiKey event) k = true) /\
    ev_body event = Some body /\ body <> [] /\
    parseDataItem sha256 fuel buffer = Ok parsed /\
    isValidOf parsed = Some true /\
    validateDataItem JSON_parse (pd_signatureType parsed) (pd_tags parsed) (pd_rawData parsed)
      (len buffer) (pd_target parsed) (pd_anchor parsed) = Valid /\
    required env_SQS_QUEUE_URL = Some queueUrl /\
    sqs_send queueUrl (base64 buffer) = true /\
    r = mkResponse 200 (BId (pd_id parsed)) /\
    m = Some (queueUrl, base64 buffer).
Proof.
  intros H Hr. unfold handler in H.
  destruct (config_apiKey env_API_KEY) as [k |] eqn:Ek.
  all: cbv zeta in H.
  all: try (destruct (checkApiKey (ev_apiKey event) k) eqn:Ec; cbn [negb] in H;
            [| injection H as <- <-; destruct Hr as [Hr | Hr]; [discriminate | congruence]]).
  all: cbn [negb] in H.
  all: destruct (ev_body event) as [[| c body] |] eqn:Eb;
       try (injection H as <- <-; destruct Hr as [Hr | Hr]; [discriminate | congruence]).
  all: destruct (parseDataItem sha256 fuel _) as [parsed | e |] eqn:Ep;
       try discriminate;
       try (injection H as <- <-; destruct Hr as [Hr | Hr]; [discriminate | congruence]).
  all: destruct (isValidOf parsed) as [[|] |] eqn:Ev;
       try (injection H as <- <-; destruct Hr as [Hr | Hr]; [discriminate | congruence]).
  all: destruct (validateDataItem _ _ _ _ _ _ _) eqn:Ed;
       try (injection H as <- <-; destruct Hr as [Hr | Hr]; [discriminate | congruence]).
  all: destruct (required env_SQS_QUEUE_URL) as [q |] eqn:Eq;
       try (injection H as <- <-; destruct Hr as [Hr | Hr]; [discriminate | congruence]).
  all: destruct (sqs_send q _) eqn:Es;
       try (injection H as <- <-; destruct Hr as [Hr | Hr]; [discriminate | congruence]).
  all: injection H as <- <-.
  all: exists (c :: body), parsed, q; cbv zeta.
  all: repeat split; try assumption; try discriminate.
  all: intros k' Hk'; congruence.
Qed.

(** [handler] answers 401 exactly when an API key is configured (set and
    non-empty) and [checkApiKey] rejects the request's key; with [API_KEY]
    unset or empty it never answers 401. *)
Theorem handler_unauthorized (sha256 : bytes -> bytes) (fuel : nat) (JSON_parse : jsstring -> option json)
    (decodeBody : jsstring -> bool -> bytes) (isValidOf : ParsedDataItem -> option bool)
    (sqs_send : jsstring -> jsstring -> bool) (env_API_KEY env_SQS_QUEUE_URL : option jsstring)
    (event : Event) (r : Response) (m : option SqsMessage) :
  handler sha256 fuel JSON_parse decodeBody isValidOf sqs_send env_API_KEY env_SQS_QUEUE_URL event
    = Some (r, m) ->
  (statusCode r = 401 <->
   exists k, config_apiKey env_API_KEY = Some k /\ checkApiKey (ev_apiKey event) k = false).
Proof.
  intros H. unfold handler in H.
  destruct (config_apiKey env_API_KEY) as [k |] eqn:Ek; cbv zeta in H.
  - destruct (checkApiKey (ev_apiKey event) k) eqn:Ec; cbn [negb] in H.
    + assert (statusCode r <> 401).
      { destruct (ev_body event) as [[| c body] |];
          try (injection H as <- <-; discriminate).
        destruct (parseDataItem sha256 fuel _) as [parsed | e |]; try discriminate;
          try (injection H as <- <-; discriminate).
        destruct (isValidOf parsed) as [[|] |]; try (injection H as <- <-; discriminate).
        destruct (validateDataItem _ _ _ _ _ _ _); try (injection H as <- <-; discriminate).
        destruct (required env_SQS_QUEUE_URL) as [q |]; try (injection H as <- <-; discriminate).
        destruct (sqs_send q _); injection H as <- <-; discriminate. }
      split; [intros; contradiction | intros [k' [Hk' Hc]]; congruence].
    + injection H as <- <-. split; [intros _; exists k; split; [reflexivity | assumption] | reflexivity].
  - assert (statusCode r <> 401).
    { cbn [negb] in H. destruct (ev_body event) as [[| c body] |];
        try (injection H as <- <-; discriminate).
      destruct (parseDataItem sha256 fuel _) as [parsed | e |]; try discriminate;
        try (injection H as <- <-; discriminate).
      destruct (isValidOf parsed) as [[|] |]; try (injection H as <- <-; discriminate).
      destruct (validateDataItem _ _ _ _ _ _ _); try (injection H as <- <-; discriminate).
      destruct (required env_SQS_QUEUE_URL) as [q |]; try (injection H as <- <-; discriminate).
      destruct (sqs_send q _); injection H as <- <-; discriminate. }
    split; [intros; contradiction | intros [k' [Hk' _]]; discriminate].
Qed.

(* ------------------------------------------------------------------------- *)
(** ** The owner-modulus cache *)

Lemma getOwnerModulus_consistent (fetchModulus : jsstring -> option bytes)
    (st : KmsCache) (arn : jsstring) :
  cache_consistent fetchModulus st ->
  let '(res, st', _) := getOwnerModulus fetchModulus st arn in
  res = fetchModulus arn /\ cache_consistent fetchModulus st'.
Proof.
  intros Hc. unfold getOwnerModulus.
  destruct (cachedOwner st) as [o |] eqn:Eo.
  - destruct (opt_str_eqb (cachedKeyArn st) arn) eqn:Ea.
    + split; [| exact Hc].
      destruct (Hc o Eo) as [a [Ha Hf]]. rewrite Ha in Ea. simpl in Ea.
      apply str_eqb_eq in Ea. subst. auto.
    + destruct (fetchModulus arn) as [m |] eqn:Ef; split; try reflexivity; try exact Hc.
      intros o' Ho'. simpl in Ho'. injection Ho' as <-. exists arn. split; [reflexivity | exact Ef].
  - destruct (fetchModulus arn) as [m |] eqn:Ef; split; try reflexivity; try exact Hc.
    intros o' Ho'. simpl in Ho'. injection Ho' as <-. exists arn. split; [reflexivity | exact Ef].
Qed.

(** Starting from the empty cache of a fresh container, every call of
    [getOwnerModulus] in any sequence returns what KMS gives for the ARN it
    is asked for: a modulus cached for another key is never returned. *)
Theorem getOwnerModulus_calls_results (fetchModulus : jsstring -> option bytes)
    (arns : list jsstring) :
  fst (getOwnerModulus_calls fetchModulus emptyKmsCache arns) = map fetchModulus arns.
Proof.
  assert (H : forall st, cache_consistent fetchModulus st ->
            fst (getOwnerModulus_calls fetchModulus st arns) = map fetchModulus arns).
  { induction arns as [| a r IH]; intros st Hc; [reflexivity |]. simpl.
    pose proof (getOwnerModulus_consistent fetchModulus st a Hc) as Hg.
    destruct (getOwnerModulus fetchModulus st a) as [[res st'] called].
    destruct Hg as [-> Hc'].
    specialize (IH st' Hc'). destruct (getOwnerModulus_calls fetchModulus st' r) as [rs st''].
    simpl in *. rewrite IH. reflexivity. }
  apply H. intros o Ho. discriminate.
Qed.

(** After a call that returns a modulus, a second call for the same ARN
    returns the same modulus from the cache, without calling KMS. *)
Theorem getOwnerModulus_cached (fetchModulus : jsstring -> option bytes)
    (st st' : KmsCache) (arn : jsstring) (m : bytes) (called : bool) :
  getOwnerModulus fetchModulus st arn = (Some m, st', called) ->
  getOwnerModulus fetchModulus st' arn = (Some m, st', false).
Proof.
  unfold getOwnerModulus. intros H.
  destruct (cachedOwner st) as [o |] eqn:Eo.
  - destruct (opt_str_eqb (cachedKeyArn st) arn) eqn:Ea.
    + injection H as <- <- _. rewrite Eo, Ea. reflexivity.
    + destruct (fetchModulus arn); [| discriminate]. injection H as <- <- _.
      simpl. rewrite str_eqb_refl. reflexivity.
  - destruct (fetchModulus arn); [| discriminate]. injection H as <- <- _.
    simpl. rewrite str_eqb_refl. reflexivity.
Qed.

(* ------------------------------------------------------------------------- *)
(** ** More of the validator *)

Lemma validate_tags_inr_literals (signatureType : Z) (tags : list Tag) (totalSize : Z)
    (target anchor : option jsstring) (tv : TagValues) :
  validate_tags signatureType tags totalSize target anchor = inr tv ->
  In (mkTag (lit "App-Name") (lit "agentsystems-notary")) tags /\
  In (mkTag (lit "Content-Type") (lit "application/json")) tags /\
  DATE_UTC (tv_notarizedDate tv) = true.
Proof.
  intros H. unfold validate_tags in H. crunch H. injection H as <-. simpl.
  apply buildTagMap_inl in E4; [| constructor]. destruct E4 as [-> _].
  apply negb_false_iff, tag_literal_true, map_get_tags_In in E5, E6.
  apply tag_format_Some in E12. destruct E12 as [_ Hd].
  auto.
Qed.

(** An item [validateDataItem] accepts is at most 12288 bytes, has
    signature type 1, no target and no anchor, nine distinct tags among
    which the fixed App-Name and Content-Type, a Notarized-Date-UTC tag that
    is the first ten characters of its ISO 8601 Notarized-At tag, and an
    SDK-Version that parses to a triple not below 0.2.0. *)
Theorem validateDataItem_Valid_tags (JSON_parse : jsstring -> option json)
    (signatureType : Z) (tags : list Tag) (rawData : bytes) (totalSize : Z)
    (target anchor : option jsstring) :
  validateDataItem JSON_parse signatureType tags rawData totalSize target anchor = Valid ->
  totalSize <= MAX_DATA_ITEM_SIZE /\ signatureType = 1 /\ target = None /\ anchor = None /\
  length tags = 9%nat /\ NoDup (map tag_name tags) /\
  In (mkTag (lit "App-Name") (lit "agentsystems-notary")) tags /\
  In (mkTag (lit "Content-Type") (lit "application/json")) tags /\
  exists notarizedAt version v,
    In (mkTag (lit "Notarized-At") notarizedAt) tags /\ ISO8601 notarizedAt = true /\
    In (mkTag (lit "Notarized-Date-UTC") (firstn 10 notarizedAt)) tags /\
    DATE_UTC (firstn 10 notarizedAt) = true /\
    In (mkTag (lit "SDK-Version") version) tags /\ SEMVER version = true /\
    parseSemver version = Some v /\ semverGte v MIN_SDK_VERSION = true.
Proof.
  intros H. unfold validateDataItem in H.
  destruct (validate_tags signatureType tags totalSize target anchor) as [e | tv] eqn:Ev;
    [discriminate |].
  pose proof Ev as Hi. apply validate_tags_inr in Hi.
  destruct Hi as (Hs & Hsig & Ht & Ha & Hl & Hnd & _ & _ & _ & Hat & Hdate & Hsdk & Hsem & Hiso).
  destruct (validate_tags_inr_literals _ _ _ _ _ _ Ev) as (Happ & Hct & Hdu).
  destruct (parseSemver (tv_sdkVersion tv)) as [v |] eqn:Ep; [| discriminate].
  destruct (semverGte v MIN_SDK_VERSION) eqn:Eg; [| discriminate].
  cbn [negb] in H.
  destruct (str_eqb (tv_notarizedDate tv) (firstn 10 (tv_notarizedAt tv))) eqn:Ed;
    [| discriminate].
  apply str_eqb_eq in Ed. rewrite Ed in Hdate, Hdu.
  repeat split; try assumption.
  exists (tv_notarizedAt tv), (tv_sdkVersion tv), v. repeat split; assumption.
Qed.

Lemma buildTagMap_app (m0 : TagMap) (pre post : list Tag) :
  buildTagMap m0 (pre ++ post) =
  match buildTagMap m0 pre with inl m => buildTagMap m post | inr e => inr e end.
Proof.
  revert m0. induction pre as [| t pre IH]; intros m0; simpl; [reflexivity |].
  destruct (map_has m0 (tag_name t)); [reflexivity | apply IH].
Qed.

(** Once size, signature type, target, anchor and the tag count have
    passed, a repeated tag name is reported with the first tag whose name
    repeats an earlier one. *)
Theorem validateDataItem_duplicate_tag (JSON_parse : jsstring -> option json)
    (tags pre post : list Tag) (t : Tag) (rawData : bytes) (totalSize : Z) :
  totalSize <= MAX_DATA_ITEM_SIZE -> length tags = 9%nat ->
  tags = pre ++ t :: post ->
  NoDup (map tag_name pre) -> In (tag_name t) (map tag_name pre) ->
  validateDataItem JSON_parse 1 tags rawData totalSize None None
  = Invalid (EDuplicateTag (tag_name t)).
Proof.
  intros Hs Hl -> Hnd Hin.
  unfold validateDataItem, validate_tags.
  destruct (totalSize >? MAX_DATA_ITEM_SIZE) eqn:E; [rewrite Z.gtb_ltb, Z.ltb_lt in E; lia |].
  change (negb (1 =? 1)) with false. cbv iota.
  unfold len, EXPECTED_TAG_COUNT. rewrite Hl. change (negb (Z.of_nat 9 =? 9)) with false.
  cbv iota.
  rewrite buildTagMap_app, (buildTagMap_nodup [] pre Hnd). simpl.
  assert (Hh : map_has (map tag_pair pre) (tag_name t) = true).
  { destruct (map_has (map tag_pair pre) (tag_name t)) eqn:Eh; [reflexivity |].
    apply map_has_false in Eh. exfalso. apply Eh.
    rewrite map_map. exact Hin. }
  rewrite Hh. reflexivity.
Qed.

(** [SEMVER] accepts only strings that [parseSemver] parses: once the
    SDK-Version tag has passed its format check, the version comparison
    always has a triple to compare. *)
Theorem SEMVER_parseSemver (s : jsstring) :
  SEMVER s = true -> exists v, parseSemver s = Some v.
Proof.
  intros H. unfold SEMVER in H. unfold parseSemver.
  repeat (cbv beta iota zeta in H;
          match type of H with
          | context [match ?x with _ => _ end] => destruct x eqn:?; try discriminate H
          end).
  all: eexists; reflexivity.
Qed.

(** [semverGte] is the lexicographic order on triples. *)
Theorem semverGte_lexicographic (a b : Z * Z * Z) :
  semverGte a b = true <-> ~ semver_lt a b.
Proof.
  destruct a as [[x y] z], b as [[p q] r].
  rewrite <- semverGte_false. destruct (semverGte _ _); split; congruence.
Qed.

(* ------------------------------------------------------------------------- *)
(** ** More of the decoder *)

Lemma subarray_length (b : bytes) (s e : Z) :
  0 <= s <= e -> e <= len b -> length (subarray b s e) = Z.to_nat (e - s).
Proof.
  intros Hs He. unfold subarray, rel_index, len in *.
  destruct (s <? 0) eqn:E1; [apply Z.ltb_lt in E1; lia |].
  destruct (e <? 0) eqn:E2; [apply Z.ltb_lt in E2; lia |].
  rewrite !Z.min_l by lia. rewrite length_firstn, length_skipn. lia.
Qed.

Lemma subarray_split (b : bytes) (s L : Z) :
  0 <= s <= len b -> 0 <= L ->
  subarray b s (s + L) ++ subarray_from b (s + L) = skipn (Z.to_nat s) b.
Proof.
  intros Hs HL. unfold subarray_from, subarray, rel_index, len in *.
  destruct (s <? 0) eqn:E1; [apply Z.ltb_lt in E1; lia |].
  destruct (s + L <? 0) eqn:E2; [apply Z.ltb_lt in E2; lia |].
  destruct (Z.of_nat (length b) <? 0) eqn:E3; [apply Z.ltb_lt in E3; lia |].
  rewrite (Z.min_l s) by lia. rewrite Z.min_id.
  set (e := Z.min (s + L) (Z.of_nat (length b))).
  assert (He : s <= e <= Z.of_nat (length b)) by (unfold e; lia).
  rewrite (firstn_all2 (n := Z.to_nat (Z.of_nat (length b) - e)))
    by (rewrite length_skipn; lia).
  replace (Z.to_nat e) with (Z.to_nat (e - s) + Z.to_nat s)%nat by lia.
  rewrite <- skipn_skipn. apply firstn_skipn.
Qed.

Lemma le_value_nonneg (b : bytes) : Forall (fun x => 0 <= x < 256) b -> 0 <= le_value b.
Proof. induction 1 as [| x r Hx _ IH]; cbn [le_value]; [lia |]. cbv beta in Hx. lia. Qed.

Lemma readUIntLE_nonneg (n : Z) (b : bytes) (off v : Z) :
  Forall (fun x => 0 <= x < 256) b -> readUIntLE n b off = Some v -> 0 <= v.
Proof.
  intros Hb H. unfold readUIntLE in H.
  destruct ((off <? 0) || (len b <? off + n)); [discriminate |]. injection H as <-.
  apply le_value_nonneg.
  rewrite <- (firstn_skipn (Z.to_nat off) b) in Hb. apply Forall_app in Hb.
  destruct Hb as [_ Hb]. rewrite <- (firstn_skipn (Z.to_nat n) (skipn (Z.to_nat off) b)) in Hb.
  apply Forall_app in Hb. exact (proj1 Hb).
Qed.

Lemma parseDataItem_Ok_tagCount (sha256 : bytes -> bytes) (fuel : nat) (buf : bytes)
    (p : ParsedDataItem) :
  parseDataItem sha256 fuel buf = Ok p ->
  readBigUInt64LE buf (tagHeaderOffset buf) = Some (len (pd_tags p)).
Proof.
  intros H. unfold parseDataItem in H. crunch H.
  all: fold_consts; injection H as <-.
  all: unfold tagHeaderOffset, anchorFlagOffset; cbv beta zeta; rewrite E1;
       cbv beta iota; fold_consts; rewrite E2; cbv beta iota; fold_consts.
  all: apply negb_false_iff, Z.eqb_eq in E6; simpl; rewrite E6; assumption.
Qed.

Lemma parseDataItem_Ok_owner (sha256 : bytes -> bytes) (fuel : nat) (buf : bytes)
    (p : ParsedDataItem) :
  parseDataItem sha256 fuel buf = Ok p -> pd_owner p = base64url (pd_ownerBytes p).
Proof. intros H. unfold parseDataItem in H. crunch H. all: injection H as <-; reflexivity. Qed.

Lemma parseDataItem_Ok_lengths (sha256 : bytes -> bytes) (fuel : nat) (buf : bytes)
    (p : ParsedDataItem) :
  parseDataItem sha256 fuel buf = Ok p ->
  length (pd_signature p) = 512%nat /\ length (pd_ownerBytes p) = 512%nat /\
  (forall t, pd_targetBytes p = Some t -> length t = 32%nat) /\
  (forall a, pd_anchorBytes p = Some a -> length a = 32%nat).
Proof.
  intros H.
  destruct (parseDataItem_Ok _ _ _ _ H)
    as (_ & Hl & _ & Hsig & _ & Hown & Htb & _ & Hab & _).
  assert (Ho : 1027 <= anchorFlagOffset buf <= 1059)
    by (unfold anchorFlagOffset; destruct (flag_is_one _); lia).
  assert (Hh : anchorFlagOffset buf + 1 <= tagHeaderOffset buf /\
               (flag_is_one (byte_at buf (anchorFlagOffset buf)) = true ->
                tagHeaderOffset buf = anchorFlagOffset buf + 33))
    by (unfold tagHeaderOffset; cbv zeta;
        destruct (flag_is_one (byte_at buf (anchorFlagOffset buf))); split; intros; lia).
  assert (Ht : flag_is_one (byte_at buf 1026) = true -> anchorFlagOffset buf = 1059)
    by (unfold anchorFlagOffset; destruct (flag_is_one (byte_at buf 1026)); intros; lia).
  repeat split.
  - rewrite Hsig, subarray_length by lia. lia.
  - rewrite Hown, subarray_length by lia. lia.
  - intros t Ht'. rewrite Htb in Ht'.
    destruct (flag_is_one (byte_at buf 1026)) eqn:E; [| discriminate].
    injection Ht' as <-. specialize (Ht eq_refl).
    rewrite subarray_length by lia. lia.
  - intros a Ha'. rewrite Hab in Ha'.
    destruct (flag_is_one (byte_at buf (anchorFlagOffset buf))) eqn:E; [| discriminate].
    injection Ha' as <-. destruct Hh as [_ Hh]. specialize (Hh eq_refl).
    rewrite subarray_length by lia. lia.
Qed.

(** A decoded blob splits without loss: the header up to the end of the
    tag-length field, then the tag bytes, then the payload give back the
    blob.  The tag-count field holds the number of decoded tags, the
    signature and the owner are 512 bytes, and a present target or anchor
    is 32 bytes. *)
Theorem parseDataItem_layout (sha256 : bytes -> bytes) (fuel : nat) (buf : bytes)
    (p : ParsedDataItem) :
  Forall (fun x => 0 <= x < 256) buf ->
  parseDataItem sha256 fuel buf = Ok p ->
  firstn (Z.to_nat (tagHeaderOffset buf + 16)) buf ++ pd_tagBytes p ++ pd_rawData p = buf /\
  readBigUInt64LE buf (tagHeaderOffset buf) = Some (len (pd_tags p)) /\
  length (pd_signature p) = 512%nat /\ length (pd_ownerBytes p) = 512%nat /\
  (forall t, pd_targetBytes p = Some t -> length t = 32%nat) /\
  (forall a, pd_anchorBytes p = Some a -> length a = 32%nat).
Proof.
  intros Hb H. pose proof (parseDataItem_Ok_tagCount _ _ _ _ H) as Hc.
  destruct (parseDataItem_Ok_lengths _ _ _ _ H) as (Hs & Ho & Ht & Ha).
  destruct (parseDataItem_Ok _ _ _ _ H)
    as (_ & Hl & _ & _ & _ & _ & _ & _ & _ & _ & L & HL & Htag & Hraw).
  assert (Hh : 1028 <= tagHeaderOffset buf)
    by (unfold tagHeaderOffset, anchorFlagOffset; cbv zeta;
        destruct (flag_is_one (byte_at buf 1026)); destruct (flag_is_one _); lia).
  pose proof (readUIntLE_nonneg _ _ _ _ Hb HL) as HL0.
  repeat split; try assumption.
  rewrite Htag, Hraw, subarray_split by lia. apply firstn_skipn.
Qed.

(** A blob shorter than 1043 bytes is always rejected with an exception,
    before the tag decoder runs: an out-of-range read at offset 0, an
    unsupported signature type, or an out-of-range read of the tag-count
    or tag-length field. *)
Theorem parseDataItem_short_rejected (sha256 : bytes -> bytes) (fuel : nat) (buf : bytes) :
  len buf < 1043 ->
  exists e, parseDataItem sha256 fuel buf = Throw e /\
    (e = ErrOutOfRange 0 \/ (exists s, e = ErrUnsupportedSignatureType s /\ s <> 1) \/
     exists off, e = ErrOutOfRange off /\ 1028 <= off <= 1100 /\ len buf < off + 8).
Proof.
  intros Hl. unfold parseDataItem.
  destruct (readUInt16LE buf 0) as [s |] eqn:E0;
    [| eexists; split; [reflexivity | left; reflexivity]].
  destruct (s =? 1) eqn:Es; cbn [negb];
    [| eexists; split; [reflexivity | right; left; exists s; split; [reflexivity |]];
       apply Z.eqb_neq; exact Es].
  destruct (flag_is_one (byte_at buf 1026)); cbv beta iota zeta; fold_consts;
  destruct (flag_is_one (byte_at buf _)); cbv beta iota zeta; fold_consts;
  (match goal with |- context [readBigUInt64LE buf ?o] =>
     destruct (readBigUInt64LE buf o) as [c |] eqn:E1 end;
   [| eexists; split; [reflexivity | right; right; eexists; split; [reflexivity |]];
      unfold readBigUInt64LE, readUIntLE in E1;
      destruct (_ <? 0) eqn:Ea; [apply Z.ltb_lt in Ea; lia |];
      destruct (len buf <? _) eqn:Eb; [apply Z.ltb_lt in Eb; lia | discriminate]]);
  fold_consts;
  (match goal with |- context [readBigUInt64LE buf ?o] =>
     destruct (readBigUInt64LE buf o) as [L |] eqn:E2 end;
   [apply readUIntLE_Some in E2; lia |
    eexists; split; [reflexivity | right; right; eexists; split; [reflexivity |]];
    unfold readBigUInt64LE, readUIntLE in E2;
    destruct (_ <? 0) eqn:Ea; [apply Z.ltb_lt in Ea; lia |];
    destruct (len buf <? _) eqn:Eb; [apply Z.ltb_lt in Eb; lia | discriminate]]).
Qed.

Lemma b64url_len_map (f : Z -> Z) (xs : list Z) : len (map f xs) = len xs.
Proof. unfold len. rewrite length_map. reflexivity. Qed.

Lemma base64url_len (l : bytes) : len (base64url l) = (4 * len l + 2) / 3.
Proof.
  revert l. fix IH 1. intros [| a [| b [| c r]]]; try reflexivity.
  cbn [base64url]. rewrite len_app, b64url_len_map, IH.
  assert (Hl : len (a :: b :: c :: r) = len r + 3) by (unfold len; simpl; lia).
  rewrite Hl. replace (4 * (len r + 3) + 2) with ((4 * len r + 2) + 4 * 3) by ring.
  rewrite Z.div_add by lia. simpl_lens. ring.
Qed.

(** With a SHA-256 of 32-byte digests, a decoded item's identifier has 43
    characters, its owner 683, and a present target 43. *)
Theorem parseDataItem_base64url_lengths (sha256 : bytes -> bytes) (fuel : nat) (buf : bytes)
    (p : ParsedDataItem) :
  (forall x, length (sha256 x) = 32%nat) ->
  parseDataItem sha256 fuel buf = Ok p ->
  len (pd_id p) = 43 /\ len (pd_owner p) = 683 /\
  (forall t, pd_target p = Some t -> len t = 43).
Proof.
  intros Hsha H. destruct (parseDataItem_Ok_lengths _ _ _ _ H) as (_ & Ho & Ht & _).
  destruct (parseDataItem_Ok _ _ _ _ H) as (_ & _ & _ & _ & Hid & _ & _ & Htg & _).
  assert (Hb : forall b n, length b = n -> len (base64url b) = (4 * Z.of_nat n + 2) / 3)
    by (intros b n <-; apply base64url_len).
  repeat split.
  - rewrite Hid, (Hb _ 32%nat (Hsha _)). reflexivity.
  - rewrite (parseDataItem_Ok_owner _ _ _ _ H), (Hb _ 512%nat Ho). reflexivity.
  - intros t Htt. rewrite Htg in Htt.
    destruct (pd_targetBytes p) as [tb |] eqn:Etb; [| discriminate].
    injection Htt as <-. rewrite (Hb _ 32%nat (Ht tb eq_refl)). reflexivity.
Qed.

Lemma b64url_char_safe (i : Z) : 0 <= i < 64 -> url_safe_char (b64url_char i) = true.
Proof.
  intros Hi.
  assert (Hall : forallb (fun j => url_safe_char (b64url_char j)) (map Z.of_nat (seq 0 64)) = true)
    by (vm_compute; reflexivity).
  rewrite forallb_forall in Hall. apply Hall.
  apply in_map_iff. exists (Z.to_nat i). split; [lia |]. apply in_seq. lia.
Qed.

(** The unpadded base64url of [n] bytes has [ceil(4 n / 3)] characters,
    all from the URL-safe alphabet. *)
Theorem base64url_length_alphabet (l : bytes) :
  Forall (fun x => 0 <= x < 256) l ->
  len (base64url l) = (4 * len l + 2) / 3 /\
  Forall (fun c => url_safe_char c = true) (base64url l).
Proof.
  intros H. split; [apply base64url_len |]. revert l H.
  fix IH 1. intros [| a [| b [| c r]]] Hl; [constructor | | |].
  all: inversion Hl as [| ? ? Ha Hl']; subst.
  - cbn [base64url map]. repeat constructor; apply b64url_char_safe.
    + split; [apply Z.div_pos | apply Z.div_lt_upper_bound]; lia.
    + apply Z.mod_pos_bound; lia.
  - inversion Hl' as [| ? ? Hb Hl'']; subst.
    cbn [base64url map]. repeat constructor; apply b64url_char_safe.
    + split; [apply Z.div_pos | apply Z.div_lt_upper_bound]; lia.
    + apply Z.mod_pos_bound; lia.
    + apply Z.mod_pos_bound; lia.
  - inversion Hl' as [| ? ? Hb Hl'']; subst. inversion Hl'' as [| ? ? Hc Hr]; subst.
    cbn [base64url map]. apply Forall_app. split; [| apply IH; exact Hr].
    repeat constructor; apply b64url_char_safe.
    + split; [apply Z.div_pos | apply Z.div_lt_upper_bound]; lia.
    + apply Z.mod_pos_bound; lia.
    + apply Z.mod_pos_bound; lia.
    + apply Z.mod_pos_bound; lia.
Qed.

Lemma decodeAvroTags_block_offset (k : nat) (buf : bytes) (off : Z) (tags tags' : list Tag) :
  fst (decodeAvroTags_block k buf off tags) = fst (decodeAvroTags_block k buf off tags').
Proof.
  revert off tags tags'. induction k as [| k IH]; intros off tags tags'; [reflexivity |].
  cbn [decodeAvroTags_block]. destruct (readZigzagVarint buf off) as [nl nb].
  destruct (readZigzagVarint buf (off + nb + nl)) as [vl vb]. apply IH.
Qed.

(** If a block of the tag array, read from an offset inside the buffer,
    ends at the offset where it started (negative zig-zag lengths move the
    offset back), the [while] loop of [decodeAvroTags] never ends, whatever
    the number of iterations allowed. *)
Theorem decodeAvroTags_loop_cycle (buf : bytes) (o bc br : Z) :
  o < len buf -> readZigzagVarint buf o = (bc, br) -> bc <> 0 ->
  fst (decodeAvroTags_block (Z.to_nat (Z.abs bc)) buf
         (if bc <? 0 then o + br + snd (readZigzagVarint buf (o + br)) else o + br) []) = o ->
  forall fuel tags, decodeAvroTags_loop fuel buf o tags = None.
Proof.
  intros Ho Hr Hbc Hcyc fuel. induction fuel as [| f IH]; intros tags; [reflexivity |].
  cbn [decodeAvroTags_loop]. apply Z.ltb_lt in Ho. rewrite Ho, Hr.
  apply Z.eqb_neq in Hbc. rewrite Hbc. cbv zeta.
  rewrite (decodeAvroTags_block_offset _ _ _ [] tags) in Hcyc.
  destruct (decodeAvroTags_block _ _ _ tags) as [o' tags'] eqn:Eb.
  simpl in Hcyc. subst o'. apply IH.
Qed.



(** A byte below 0x80 is a whole varint: [readZigzagVarint] reads it in
    one byte as [b / 2] when [b] is even and as [-(b + 1) / 2] when it is
    odd, so odd bytes give negative lengths and counts. *)
Theorem readZigzagVarint_one_byte (buf : bytes) (offset b : Z) (r : bytes) :
  0 <= b < 128 -> suffix buf offset = b :: r ->
  readZigzagVarint buf offset = (if Z.even b then b / 2 else - ((b + 1) / 2), 1).
Proof.
  intros Hb Hs. unfold readZigzagVarint. rewrite Hs. cbn [readZigzag_loop].
  assert (Hall : forallb (fun b => Z.land b 0x80 =? 0)
                   (map (fun i => 0 + Z.of_nat i) (seq 0 128)) = true)
    by (vm_compute; reflexivity).
  rewrite forallb_forall in Hall. specialize (Hall b (in_range_list 0 128 b ltac:(lia))).
  rewrite Hall.
  assert (Hv : forallb (fun b =>
            let '(result, n) := (js_or 0 (js_shl (Z.land b 0x7f) 0), 0 + 1) in
            (js_xor (js_ushr result 1) (- js_and result 1) =?
               (if Z.even b then b / 2 else - ((b + 1) / 2))) && (n =? 1))
            (map (fun i => 0 + Z.of_nat i) (seq 0 128)) = true) by (vm_compute; reflexivity).
  rewrite forallb_forall in Hv. specialize (Hv b (in_range_list 0 128 b ltac:(lia))).
  cbv beta iota zeta in Hv. apply andb_prop in Hv. destruct Hv as [Hv1 Hv2].
  apply Z.eqb_eq in Hv1, Hv2. rewrite Hv1, Hv2. reflexivity.
Qed.

(* ------------------------------------------------------------------------- *)
(** ** The length fields of the assembler *)

Lemma Zmod_mul_r (a b c : Z) :
  0 < b -> 0 < c -> a mod (b * c) = a mod b + b * ((a / b) mod c).
Proof.
  intros Hb Hc. symmetry. apply (Z.mod_unique _ _ ((a / b) / c)).
  - left. pose proof (Z.mod_pos_bound a b Hb). pose proof (Z.mod_pos_bound (a / b) c Hc).
    split; [lia |]. nia.
  - pose proof (Z.div_mod a b ltac:(lia)) as E1. pose proof (Z.div_mod (a / b) c ltac:(lia)) as E2.
    rewrite E1 at 1. rewrite E2 at 1. ring.
Qed.

Lemma le_value_lowbytes (n : Z) (j k : nat) :
  0 <= n ->
  le_value (map (fun i => (n / 256 ^ Z.of_nat i) mod 256) (seq j k))
  = (n / 256 ^ Z.of_nat j) mod 256 ^ Z.of_nat k.
Proof.
  intros Hn. revert j. induction k as [| k IH]; intros j.
  - cbn. rewrite Z.mod_1_r. reflexivity.
  - cbn [seq map le_value]. rewrite IH, <- div_pow256_S.
    rewrite Nat2Z.inj_succ, Z.pow_succ_r by lia.
    rewrite Zmod_mul_r by lia. reflexivity.
Qed.

(** The 32-byte field [longTo32ByteArray] writes reads back, with the
    64-bit little-endian reader the decoder uses for its own length fields,
    as the value modulo 2^64. *)
Theorem longTo32ByteArray_readBack (n : Z) :
  0 <= n ->
  length (longTo32ByteArray n) = 32%nat /\
  readBigUInt64LE (longTo32ByteArray n) 0 = Some (n mod 2 ^ 64).
Proof.
  intros Hn. rewrite longTo32ByteArray_spec by exact Hn. split; [apply spec_le32_length |].
  unfold readBigUInt64LE, readUIntLE. unfold len at 1. rewrite spec_le32_length.
  change ((0 <? 0) || (Z.of_nat 32 <? 0 + 8)) with false. cbv iota.
  unfold spec_le32. cbn [skipn Z.to_nat Pos.to_nat].
  rewrite firstn_app, length_map, length_seq. cbn [Nat.sub firstn]. rewrite app_nil_r.
  rewrite firstn_all2 by (rewrite length_map, length_seq; lia).
  rewrite le_value_lowbytes by exact Hn.
  change (256 ^ Z.of_nat 0) with 1. rewrite Z.div_1_r. reflexivity.
Qed.


(* ========================================================================= *)
(** * Counterexamples *)

(** C5: an anchor of 32 NUL bytes decodes to no anchor, so the anchor check
    passes and the item is rejected later, for its tag count. *)
Lemma nul_anchor_not_rejected :
  byte_at nul_anchor_item 1027 = Some 1 /\
  pd_anchorBytes (sample_parsed nul_anchor_item) = Some (repeat 0 32) /\
  pd_anchor (sample_parsed nul_anchor_item) = None /\
  decodeThenValidate (fun _ => None) sample_sha256 1 nul_anchor_item =
  PValidated (Invalid (ETagCount 0)).
Proof. vm_compute. repeat split. Qed.

(** C8: a tag name holding the invalid UTF-8 byte 0xFF is decoded to U+FFFD
    and the item decodes. *)
Lemma invalid_utf8_tag_decoded :
  exists p, parseDataItem sample_sha256 2 invalid_utf8_item = Ok p /\
    pd_tags p = [mkTag [0xFFFD] [0x41]].
Proof. run_parse. Qed.

(** C9: an [SDK-Version] of 0.1.9 is rejected by an earlier check, with the
    tag-count error, not with the below-minimum error. *)
Lemma sdk_0_1_9_rejected_earlier :
  validateDataItem (fun _ => None) 1 [mkTag (lit "SDK-Version") (lit "0.1.9")] [] 0 None None
  = Invalid (ETagCount 1).
Proof. vm_compute. reflexivity. Qed.

(* ========================================================================= *)
(** * Witnesses *)

Lemma assembleBundle_framing_witness :
  (forall x, length (sample_sha256 x) = 32%nat) /\
  Forall (fun b => (514 <= length b)%nat) [flag2_item] /\
  assembleBundle sample_sha256 [flag2_item] = spec_bundle sample_sha256 [flag2_item] /\
  len (assembleBundle sample_sha256 [flag2_item]) =
  32 + 64 * len [flag2_item] + sum_lengths [flag2_item].
Proof.
  assert (Hsha : forall x, length (sample_sha256 x) = 32%nat) by (intros x; reflexivity).
  assert (HL : Forall (fun b => (514 <= length b)%nat) [flag2_item]).
  { constructor; [apply Nat.leb_le; vm_compute; reflexivity | constructor]. }
  split; [exact Hsha |]. split; [exact HL |].
  exact (assembleBundle_framing sample_sha256 [flag2_item] Hsha HL).
Defined.

Lemma validateDataItem_schema_witness :
  validateDataItem sample_json_parse 1 (sample_tags "0.2.0") [] 1000 None None = Valid /\
  length (sample_tags "0.2.0") = 9%nat /\ NoDup (map tag_name (sample_tags "0.2.0")) /\
  (forall n, In n required_tag_names -> In n (map tag_name (sample_tags "0.2.0"))) /\
  exists ms hash namespace notarized_at sdk_version,
    sample_json_parse (utf8_decode []) = Some (JObject ms) /\
    (forall k, In k (map fst ms) <-> In k body_field_names) /\
    js_get ms (lit "hash") = Some (JString hash) /\
    js_get ms (lit "namespace") = Some (JString namespace) /\
    js_get ms (lit "notarized_at") = Some (JString notarized_at) /\
    js_get ms (lit "sdk_version") = Some (JString sdk_version) /\
    js_get ms (lit "v") = Some (JString (lit "1")) /\
    In (mkTag (lit "Hash") hash) (sample_tags "0.2.0") /\
    In (mkTag (lit "Namespace") namespace) (sample_tags "0.2.0") /\
    In (mkTag (lit "Notarized-At") notarized_at) (sample_tags "0.2.0") /\
    In (mkTag (lit "SDK-Version") sdk_version) (sample_tags "0.2.0").
Proof.
  assert (H : validateDataItem sample_json_parse 1 (sample_tags "0.2.0") [] 1000 None None = Valid)
    by (vm_compute; reflexivity).
  split; [exact H |].
  exact (validateDataItem_schema sample_json_parse 1 (sample_tags "0.2.0") [] 1000 None None H).
Defined.

Lemma parseDataItem_identifier_witness :
  parseDataItem sample_sha256 1 flag2_empty_item = Ok (sample_parsed flag2_empty_item) /\
  (514 <= length flag2_empty_item)%nat /\
  length (firstn 512 (skipn 2 flag2_empty_item)) = 512%nat /\
  pd_id (sample_parsed flag2_empty_item) =
  base64url (sample_sha256 (firstn 512 (skipn 2 flag2_empty_item))) /\
  (forall fuel' buf' p',
     parseDataItem sample_sha256 fuel' buf' = Ok p' ->
     firstn 512 (skipn 2 buf') = firstn 512 (skipn 2 flag2_empty_item) ->
     pd_id p' = pd_id (sample_parsed flag2_empty_item)).
Proof.
  assert (H : parseDataItem sample_sha256 1 flag2_empty_item = Ok (sample_parsed flag2_empty_item))
    by (vm_compute; reflexivity).
  split; [exact H |].
  exact (parseDataItem_identifier sample_sha256 1 flag2_empty_item _ H).
Defined.

Lemma decodeThenValidate_anchor_rejected_witness :
  parseDataItem sample_sha256 1 text_anchor_item = Ok (sample_parsed text_anchor_item) /\
  byte_at text_anchor_item 1026 <> Some 1 /\
  byte_at text_anchor_item 1027 = Some 1 /\
  len text_anchor_item <= MAX_DATA_ITEM_SIZE /\
  Exists (fun x => x <> 0) (subarray text_anchor_item 1028 1060) /\
  decodeThenValidate sample_json_parse sample_sha256 1 text_anchor_item =
  PValidated (Invalid EAnchorNotAllowed) /\
  parseDataItem sample_sha256 1 nul_anchor_item = Ok (sample_parsed nul_anchor_item) /\
  byte_at nul_anchor_item 1026 <> Some 1 /\
  byte_at nul_anchor_item 1027 = Some 1 /\
  Forall (fun x => x = 0) (subarray nul_anchor_item 1028 1060) /\
  pd_anchor (sample_parsed nul_anchor_item) = None /\
  decodeThenValidate sample_json_parse sample_sha256 1 nul_anchor_item
  <> PValidated (Invalid EAnchorNotAllowed).
Proof.
  assert (H1 : parseDataItem sample_sha256 1 text_anchor_item = Ok (sample_parsed text_anchor_item))
    by (vm_compute; reflexivity).
  assert (H2 : len text_anchor_item <= MAX_DATA_ITEM_SIZE)
    by (apply Z.leb_le; vm_compute; reflexivity).
  assert (H3 : byte_at text_anchor_item 1026 <> Some 1) by (vm_compute; discriminate).
  assert (H4 : byte_at text_anchor_item 1027 = Some 1) by (vm_compute; reflexivity).
  assert (H5 : Exists (fun x => x <> 0) (subarray text_anchor_item 1028 1060))
    by (vm_compute; constructor; discriminate).
  assert (N1 : parseDataItem sample_sha256 1 nul_anchor_item = Ok (sample_parsed nul_anchor_item))
    by (vm_compute; reflexivity).
  assert (N3 : byte_at nul_anchor_item 1026 <> Some 1) by (vm_compute; discriminate).
  assert (N4 : byte_at nul_anchor_item 1027 = Some 1) by (vm_compute; reflexivity).
  assert (N5 : Forall (fun x => x = 0) (subarray nul_anchor_item 1028 1060))
    by (vm_compute; repeat constructor).
  destruct (decodeThenValidate_anchor_rejected sample_json_parse sample_sha256 1 text_anchor_item
              _ H1 H3 H4) as [R _].
  destruct (decodeThenValidate_anchor_rejected sample_json_parse sample_sha256 1 nul_anchor_item
              _ N1 N3 N4) as [_ Z].
  destruct (Z N5) as (_ & _ & Zn & Zv).
  repeat (split; [assumption |]). split; [exact (R H2 H5) |].
  repeat (split; [assumption |]). exact Zv.
Defined.

Lemma decodeAvroTags_encoded_witness :
  (2 <= 2)%nat /\ len [([0xFF], [0x41]); ([0xC3], repeat 0xE9 200)] < 2 ^ 30 /\
  Forall tag_fits [([0xFF], [0x41]); ([0xC3], repeat 0xE9 200)] /\
  decodeAvroTags 2 (avro_encode_tags [([0xFF], [0x41]); ([0xC3], repeat 0xE9 200)]) =
  Some (map decoded_tag [([0xFF], [0x41]); ([0xC3], repeat 0xE9 200)]).
Proof.
  assert (H1 : (2 <= 2)%nat) by lia.
  assert (H2 : len [([0xFF], [0x41]); ([0xC3], repeat 0xE9 200)] < 2 ^ 30)
    by (vm_compute; reflexivity).
  assert (H3 : Forall tag_fits [([0xFF], [0x41]); ([0xC3], repeat 0xE9 200)])
    by (repeat constructor; vm_compute; reflexivity).
  repeat (split; [assumption |]).
  exact (decodeAvroTags_encoded 2 _ H1 H2 H3).
Defined.

Lemma validateDataItem_sdk_minimum_witness :
  validate_tags 1 (sample_tags "0.1.9") 1000 None None = inr (sample_tag_values "0.1.9") /\
  In (mkTag (lit "SDK-Version") (lit "0" ++ 46 :: lit "1" ++ 46 :: lit "9")) (sample_tags "0.1.9") /\
  ((exists v, validateDataItem sample_json_parse 1 (sample_tags "0.1.9") [] 1000 None None
              = Invalid (ESdkVersionBelowMinimum v)) <->
   semver_lt (parseInt10 (lit "0"), parseInt10 (lit "1"), parseInt10 (lit "9")) MIN_SDK_VERSION).
Proof.
  assert (H1 : validate_tags 1 (sample_tags "0.1.9") 1000 None None = inr (sample_tag_values "0.1.9"))
    by (vm_compute; reflexivity).
  assert (H2 : In (mkTag (lit "SDK-Version") (lit "0" ++ 46 :: lit "1" ++ 46 :: lit "9"))
                 (sample_tags "0.1.9"))
    by (do 8 right; left; reflexivity).
  assert (Ha : lit "0" <> []) by discriminate.
  assert (Hb : lit "1" <> []) by discriminate.
  assert (Hc : lit "9" <> []) by discriminate.
  assert (Da : forallb is_digit (lit "0") = true) by reflexivity.
  assert (Db : forallb is_digit (lit "1") = true) by reflexivity.
  assert (Dc : forallb is_digit (lit "9") = true) by reflexivity.
  split; [exact H1 |]. split; [exact H2 |].
  exact (validateDataItem_sdk_minimum sample_json_parse 1 (sample_tags "0.1.9") [] 1000 None None
           (sample_tag_values "0.1.9") (lit "0") (lit "1") (lit "9") H1 H2 Ha Hb Hc Da Db Dc).
Defined.

Lemma validateDataItem_Permutation_verdict_witness :
  let tags := sample_tags "0.2.0" in
  let tags' := match tags with a :: b :: r => b :: a :: r | _ => tags end in
  Permutation tags tags' /\
  is_valid (validateDataItem sample_json_parse 1 tags' [] 1000 None None) =
  is_valid (validateDataItem sample_json_parse 1 tags [] 1000 None None).
Proof.
  cbv zeta. assert (Hp : Permutation (sample_tags "0.2.0")
    (match sample_tags "0.2.0" with a :: b :: r => b :: a :: r | _ => sample_tags "0.2.0" end))
    by (simpl; apply perm_swap).
  split; [exact Hp |].
  exact (validateDataItem_Permutation_verdict sample_json_parse 1 _ _ [] 1000 None None Hp).
Defined.


Lemma checkApiKey_scalar_witness :
  Forall unicode_scalar (lit "key") /\
  (checkApiKey (Some (lit "key")) (lit "key") = true <-> lit "key" <> [] /\ lit "key" = lit "key").
Proof.
  assert (Hs : Forall unicode_scalar (lit "key")).
  { apply Forall_forall. intros c Hc. vm_compute in Hc.
    repeat destruct Hc as [<- | Hc]; try contradiction; unfold unicode_scalar; lia. }
  split; [exact Hs |]. exact (checkApiKey_scalar (lit "key") (lit "key") Hs Hs).
Defined.

Lemma handler_accepts_witness :
  sample_handler_run = Some (sample_response, sample_message) /\
  exists body parsed queueUrl,
    let buffer := valid_item in
    (forall k, config_apiKey (Some (lit "key")) = Some k ->
       checkApiKey (ev_apiKey sample_event) k = true) /\
    ev_body sample_event = Some body /\ body <> [] /\
    parseDataItem sample_sha256 2 buffer = Ok parsed /\
    Some true = Some true /\
    validateDataItem sample_json_parse (pd_signatureType parsed) (pd_tags parsed)
      (pd_rawData parsed) (len buffer) (pd_target parsed) (pd_anchor parsed) = Valid /\
    required (Some (lit "queue")) = Some queueUrl /\
    true = true /\
    sample_response = mkResponse 200 (BId (pd_id parsed)) /\
    sample_message = Some (queueUrl, base64 buffer).
Proof.
  assert (H : sample_handler_run = Some (sample_response, sample_message))
    by (vm_compute; reflexivity).
  assert (Hr : statusCode sample_response = 200 \/ sample_message <> None)
    by (left; vm_compute; reflexivity).
  split; [exact H |].
  exact (handler_accepts sample_sha256 2 sample_json_parse (fun _ _ => valid_item)
           (fun _ => Some true) (fun _ _ => true) (Some (lit "key")) (Some (lit "queue"))
           sample_event sample_response sample_message H Hr).
Defined.

Lemma handler_unauthorized_witness :
  handler sample_sha256 2 sample_json_parse (fun _ _ => valid_item) (fun _ => Some true)
    (fun _ _ => true) (Some (lit "key")) (Some (lit "queue"))
    (mkEvent None (Some (lit "body")) true) = Some (mkResponse 401 BUnauthorized, None) /\
  (statusCode (mkResponse 401 BUnauthorized) = 401 <->
   exists k, config_apiKey (Some (lit "key")) = Some k /\
             checkApiKey (ev_apiKey (mkEvent None (Some (lit "body")) true)) k = false).
Proof.
  assert (H : handler sample_sha256 2 sample_json_parse (fun _ _ => valid_item) (fun _ => Some true)
    (fun _ _ => true) (Some (lit "key")) (Some (lit "queue"))
    (mkEvent None (Some (lit "body")) true) = Some (mkResponse 401 BUnauthorized, None))
    by (vm_compute; reflexivity).
  split; [exact H |].
  exact (handler_unauthorized sample_sha256 2 sample_json_parse (fun _ _ => valid_item)
           (fun _ => Some true) (fun _ _ => true) (Some (lit "key")) (Some (lit "queue"))
           (mkEvent None (Some (lit "body")) true) _ _ H).
Defined.

Lemma getOwnerModulus_cached_witness :
  getOwnerModulus (fun _ => Some [1; 2]) emptyKmsCache (lit "arn")
    = (Some [1; 2], mkKmsCache (Some [1; 2]) (Some (lit "arn")), true) /\
  getOwnerModulus (fun _ => Some [1; 2]) (mkKmsCache (Some [1; 2]) (Some (lit "arn"))) (lit "arn")
    = (Some [1; 2], mkKmsCache (Some [1; 2]) (Some (lit "arn")), false).
Proof.
  assert (H : getOwnerModulus (fun _ => Some [1; 2]) emptyKmsCache (lit "arn")
    = (Some [1; 2], mkKmsCache (Some [1; 2]) (Some (lit "arn")), true))
    by (vm_compute; reflexivity).
  split; [exact H |].
  exact (getOwnerModulus_cached (fun _ => Some [1; 2]) emptyKmsCache _ (lit "arn") [1; 2] true H).
Defined.

Lemma validateDataItem_Valid_tags_witness :
  validateDataItem sample_json_parse 1 (sample_tags "0.2.0") [] 1000 None None = Valid /\
  1000 <= MAX_DATA_ITEM_SIZE /\ 1 = 1 /\ @None jsstring = None /\ @None jsstring = None /\
  length (sample_tags "0.2.0") = 9%nat /\ NoDup (map tag_name (sample_tags "0.2.0")) /\
  In (mkTag (lit "App-Name") (lit "agentsystems-notary")) (sample_tags "0.2.0") /\
  In (mkTag (lit "Content-Type") (lit "application/json")) (sample_tags "0.2.0") /\
  exists notarizedAt version v,
    In (mkTag (lit "Notarized-At") notarizedAt) (sample_tags "0.2.0") /\
    ISO8601 notarizedAt = true /\
    In (mkTag (lit "Notarized-Date-UTC") (firstn 10 notarizedAt)) (sample_tags "0.2.0") /\
    DATE_UTC (firstn 10 notarizedAt) = true /\
    In (mkTag (lit "SDK-Version") version) (sample_tags "0.2.0") /\ SEMVER version = true /\
    parseSemver version = Some v /\ semverGte v MIN_SDK_VERSION = true.
Proof.
  assert (H : validateDataItem sample_json_parse 1 (sample_tags "0.2.0") [] 1000 None None = Valid)
    by (vm_compute; reflexivity).
  split; [exact H |].
  exact (validateDataItem_Valid_tags sample_json_parse 1 (sample_tags "0.2.0") [] 1000 None None H).
Defined.

Lemma validateDataItem_duplicate_tag_witness :
  1000 <= MAX_DATA_ITEM_SIZE /\
  length (firstn 8 (sample_tags "0.2.0") ++ [mkTag (lit "App-Name") (lit "x")]) = 9%nat /\
  NoDup (map tag_name (firstn 8 (sample_tags "0.2.0"))) /\
  In (lit "App-Name") (map tag_name (firstn 8 (sample_tags "0.2.0"))) /\
  validateDataItem sample_json_parse 1
    (firstn 8 (sample_tags "0.2.0") ++ [mkTag (lit "App-Name") (lit "x")]) [] 1000 None None
  = Invalid (EDuplicateTag (lit "App-Name")).
Proof.
  assert (Hs : 1000 <= MAX_DATA_ITEM_SIZE) by (unfold MAX_DATA_ITEM_SIZE; lia).
  assert (Hl : length (firstn 8 (sample_tags "0.2.0") ++ [mkTag (lit "App-Name") (lit "x")])
               = 9%nat) by reflexivity.
  assert (Hnd : NoDup (map tag_name (firstn 8 (sample_tags "0.2.0")))).
  { assert (E : nodup (list_eq_dec Z.eq_dec) (map tag_name (firstn 8 (sample_tags "0.2.0")))
               = map tag_name (firstn 8 (sample_tags "0.2.0"))) by (vm_compute; reflexivity).
    rewrite <- E. apply NoDup_nodup. }
  assert (Hin : In (lit "App-Name") (map tag_name (firstn 8 (sample_tags "0.2.0"))))
    by (left; reflexivity).
  split; [exact Hs |]. split; [exact Hl |]. split; [exact Hnd |]. split; [exact Hin |].
  exact (validateDataItem_duplicate_tag sample_json_parse _ (firstn 8 (sample_tags "0.2.0")) []
           (mkTag (lit "App-Name") (lit "x")) [] 1000 Hs Hl eq_refl Hnd Hin).
Defined.

Lemma parseDataItem_layout_witness :
  exists p,
    Forall (fun x => 0 <= x < 256) valid_item /\
    parseDataItem sample_sha256 2 valid_item = Ok p /\
    firstn (Z.to_nat (tagHeaderOffset valid_item + 16)) valid_item ++ pd_tagBytes p ++ pd_rawData p
      = valid_item /\
    readBigUInt64LE valid_item (tagHeaderOffset valid_item) = Some (len (pd_tags p)) /\
    length (pd_signature p) = 512%nat /\ length (pd_ownerBytes p) = 512%nat /\
    (forall t, pd_targetBytes p = Some t -> length t = 32%nat) /\
    (forall a, pd_anchorBytes p = Some a -> length a = 32%nat).
Proof.
  assert (Hb : Forall (fun x => 0 <= x < 256) valid_item).
  { apply Forall_forall. intros x Hx.
    assert (Hall : forallb (fun x => (0 <=? x) && (x <? 256)) valid_item = true)
      by (vm_compute; reflexivity).
    rewrite forallb_forall in Hall. specialize (Hall x Hx).
    apply andb_prop in Hall. rewrite Z.leb_le, Z.ltb_lt in Hall. exact Hall. }
  destruct (parseDataItem sample_sha256 2 valid_item) as [p | e |] eqn:E;
    [| vm_compute in E; discriminate E | vm_compute in E; discriminate E].
  exists p. split; [exact Hb |]. split; [reflexivity |].
  exact (parseDataItem_layout sample_sha256 2 valid_item p Hb E).
Defined.

Lemma parseDataItem_short_rejected_witness :
  len sample_prefix < 1043 /\
  exists e, parseDataItem sample_sha256 1 sample_prefix = Throw e /\
    (e = ErrOutOfRange 0 \/ (exists s, e = ErrUnsupportedSignatureType s /\ s <> 1) \/
     exists off, e = ErrOutOfRange off /\ 1028 <= off <= 1100 /\ len sample_prefix < off + 8).
Proof.
  assert (Hl : len sample_prefix < 1043) by (vm_compute; reflexivity).
  split; [exact Hl |]. exact (parseDataItem_short_rejected sample_sha256 1 sample_prefix Hl).
Defined.

Lemma decodeAvroTags_loop_cycle_witness :
  0 < len [2; 0; 5] /\ readZigzagVarint [2; 0; 5] 0 = (1, 1) /\
  fst (decodeAvroTags_block 1 [2; 0; 5] 1 []) = 0 /\
  forall fuel tags, decodeAvroTags_loop fuel [2; 0; 5] 0 tags = None.
Proof.
  assert (H1 : 0 < len [2; 0; 5]) by (vm_compute; reflexivity).
  assert (H2 : readZigzagVarint [2; 0; 5] 0 = (1, 1)) by (vm_compute; reflexivity).
  assert (H3 : fst (decodeAvroTags_block (Z.to_nat (Z.abs 1)) [2; 0; 5]
                 (if 1 <? 0 then 0 + 1 + snd (readZigzagVarint [2; 0; 5] (0 + 1)) else 0 + 1) [])
               = 0) by (vm_compute; reflexivity).
  split; [exact H1 |]. split; [exact H2 |]. split; [exact H3 |].
  exact (decodeAvroTags_loop_cycle [2; 0; 5] 0 1 1 H1 H2 ltac:(lia) H3).
Defined.

Lemma base64url_length_alphabet_witness :
  Forall (fun x => 0 <= x < 256) [1; 2; 250] /\
  len (base64url [1; 2; 250]) = (4 * len [1; 2; 250] + 2) / 3 /\
  Forall (fun c => url_safe_char c = true) (base64url [1; 2; 250]).
Proof.
  assert (Hb : Forall (fun x => 0 <= x < 256) [1; 2; 250]) by (repeat constructor; lia).
  split; [exact Hb |]. exact (base64url_length_alphabet [1; 2; 250] Hb).
Defined.

Lemma parseDataItem_base64url_lengths_witness :
  (forall x, length (sample_sha256 x) = 32%nat) /\
  exists p, parseDataItem sample_sha256 2 valid_item = Ok p /\
    len (pd_id p) = 43 /\ len (pd_owner p) = 683 /\
    (forall t, pd_target p = Some t -> len t = 43).
Proof.
  assert (Hs : forall x, length (sample_sha256 x) = 32%nat) by (intros x; reflexivity).
  split; [exact Hs |].
  destruct (parseDataItem sample_sha256 2 valid_item) as [p | e |] eqn:E;
    [| vm_compute in E; discriminate E | vm_compute in E; discriminate E].
  exists p. split; [reflexivity |].
  exact (parseDataItem_base64url_lengths sample_sha256 2 valid_item p Hs E).
Defined.

Lemma SEMVER_parseSemver_witness :
  SEMVER (lit "0.2.0") = true /\ exists v, parseSemver (lit "0.2.0") = Some v.
Proof.
  assert (H : SEMVER (lit "0.2.0") = true) by (vm_compute; reflexivity).
  split; [exact H |]. exact (SEMVER_parseSemver (lit "0.2.0") H).
Defined.

Lemma longTo32ByteArray_readBack_witness :
  0 <= 300 /\ length (longTo32ByteArray 300) = 32%nat /\
  readBigUInt64LE (longTo32ByteArray 300) 0 = Some (300 mod 2 ^ 64).
Proof.
  assert (H : 0 <= 300) by lia.
  split; [exact H |]. exact (longTo32ByteArray_readBack 300 H).
Defined.

Lemma readZigzagVarint_one_byte_witness :
  0 <= 3 < 128 /\ suffix [3] 0 = [3] /\
  readZigzagVarint [3] 0 = (if Z.even 3 then 3 / 2 else - ((3 + 1) / 2), 1).
Proof.
  assert (Hb : 0 <= 3 < 128) by lia.
  assert (Hs : suffix [3] 0 = [3]) by reflexivity.
  split; [exact Hb |]. split; [exact Hs |].
  exact (readZigzagVarint_one_byte [3] 0 3 [] Hb Hs).
Defined.
